(** * map-players.py: name reconciliation between two player rosters

    A shallow embedding of [src/map-players.py] and the properties of its
    name normaliser, lookup index, three-tier resolver, reconciliation loop
    and UI propagation step.

    Conventions.
    - A Python [str] is a sequence of Unicode code points: [str := list N].
      [py "..."] injects an ASCII literal.
    - The Unicode tables consulted by [str.lower], [unicodedata] and [re]
      are a parameter of the development ([UnicodeData]); [ucd] is a small
      concrete excerpt of the Unicode Character Database used to evaluate
      the functions on explicit inputs.
    - A Python [dict] is an association list in insertion order with the
      update-in-place semantics of [d[k] = v].
    - A similarity score is the exact rational 2M/T; the script holds its
      binary64 rounding.  Rounding is monotone and 0.86 is rounded the same
      way, so the two comparisons of the script agree with the rational
      ones for all strings whose lengths are below 10^7. *)

From Stdlib Require Import List Bool NArith ZArith QArith Lia String Ascii.
Import ListNotations.
Close Scope Q_scope.

(** ** Python strings *)

Definition char := N.
Definition str := list char.

Definition py (s : string) : str := map N_of_ascii (list_ascii_of_string s).

Fixpoint str_eqb (a b : str) : bool :=
  match a, b with
  | [], [] => true
  | x :: a', y :: b' => (x =? y)%N && str_eqb a' b'
  | _, _ => false
  end.

(** [bool(s)]: a string is truthy when it is not empty. *)
Definition nonempty (s : str) : bool :=
  match s with [] => false | _ :: _ => true end.

Fixpoint starts_with (needle hay : str) : bool :=
  match needle, hay with
  | [], _ => true
  | x :: n', y :: h' => (x =? y)%N && starts_with n' h'
  | _ :: _, [] => false
  end.

(** [needle in hay] for two strings. *)
Fixpoint str_in (needle hay : str) : bool :=
  starts_with needle hay ||
  match hay with
  | [] => false
  | _ :: h' => str_in needle h'
  end.

Fixpoint drop_while (f : char -> bool) (s : str) : str :=
  match s with
  | [] => []
  | c :: t => if f c then drop_while f t else s
  end.

Fixpoint take_while (f : char -> bool) (s : str) : str :=
  match s with
  | [] => []
  | c :: t => if f c then c :: take_while f t else []
  end.

Definition HYPHEN : char := 45%N.
Definition SPACE : char := 32%N.
Definition UNDERSCORE : char := 95%N.

(** ** The Unicode tables behind [normalize] *)

Record UnicodeData := {
  (** [s.lower()] *)
  str_lower : str -> str;
  (** [unicodedata.normalize('NFKD', s)] *)
  nfkd : str -> str;
  (** [unicodedata.combining(c)], the canonical combining class *)
  combining : char -> N;
  (** [c.isalnum()]; the class [\w] of [re] is this or an underscore *)
  isalnum : char -> bool;
  (** [c.isspace()]; the class [\s] of [re] and what [str.strip] removes *)
  isspace : char -> bool
}.

Section Normalize.
Variable U : UnicodeData.

(** [name.replace('-', ' ')] *)
Definition replace_hyphen (s : str) : str :=
  map (fun c => if (c =? HYPHEN)%N then SPACE else c) s.

(** The join of the characters [c] of [name] for which
    [unicodedata.combining(c)] is zero. *)
Definition drop_combining (s : str) : str :=
  filter (fun c => (combining U c =? 0)%N) s.

Definition is_word (c : char) : bool :=
  isalnum U c || (c =? UNDERSCORE)%N.

(** [re.sub(r'[^\w\s]', '', name)] *)
Definition drop_non_word (s : str) : str :=
  filter (fun c => is_word c || isspace U c) s.

(** [re.sub(r'\s+', ' ', name)]: [in_run] tells that the previous
    character was white space, already replaced. *)
Fixpoint collapse_ws (in_run : bool) (s : str) : str :=
  match s with
  | [] => []
  | c :: t =>
      if isspace U c
      then if in_run then collapse_ws true t else SPACE :: collapse_ws true t
      else c :: collapse_ws false t
  end.

(** [name.strip()] *)
Definition strip (s : str) : str :=
  rev (drop_while (isspace U) (rev (drop_while (isspace U) s))).

Definition normalize (name : str) : str :=
  if nonempty name then
    let name := replace_hyphen (str_lower U name) in
    let name := nfkd U name in
    let name := drop_combining name in
    let name := drop_non_word name in
    strip (collapse_ws false name)
  else [].
End Normalize.

(** ** An excerpt of the Unicode Character Database

    The ASCII range is complete.  Outside it the excerpt assigns the Latin
    letters of the examples, two combining accents, the no-break space and
    U+210B SCRIPT CAPITAL H; every code point left out is treated as Python
    treats an unassigned one (caseless, undecomposable, neither alphanumeric
    nor white space). *)
Module UCD.
Local Open Scope N_scope.

Definition ascii_upper (c : char) : bool := (65 <=? c) && (c <=? 90).
Definition ascii_lower (c : char) : bool := (97 <=? c) && (c <=? 122).
Definition ascii_digit (c : char) : bool := (48 <=? c) && (c <=? 57).

Definition lower_char (c : char) : str :=
  if ascii_upper c then [c + 32]
  else if c =? 0xC9 then [0xE9]          (* E acute *)
  else if c =? 0xD1 then [0xF1]          (* N tilde *)
  else if c =? 0xDA then [0xFA]          (* U acute *)
  else [c].

Definition decompose_char (c : char) : str :=
  if c =? 0xA0 then [0x20]               (* no-break space *)
  else if c =? 0xC9 then [0x45; 0x301]   (* E acute *)
  else if c =? 0xD1 then [0x4E; 0x303]   (* N tilde *)
  else if c =? 0xDA then [0x55; 0x301]   (* U acute *)
  else if c =? 0xE9 then [0x65; 0x301]   (* e acute *)
  else if c =? 0xF1 then [0x6E; 0x303]   (* n tilde *)
  else if c =? 0xFA then [0x75; 0x301]   (* u acute *)
  else if c =? 0x210B then [0x48]        (* script capital H *)
  else [c].

Definition combining_class (c : char) : N :=
  if (c =? 0x301) || (c =? 0x303) then 230 else 0.

Definition alnum (c : char) : bool :=
  ascii_upper c || ascii_lower c || ascii_digit c ||
  (c =? 0xC9) || (c =? 0xD1) || (c =? 0xDA) ||
  (c =? 0xE9) || (c =? 0xF1) || (c =? 0xFA) || (c =? 0x210B).

Definition space (c : char) : bool :=
  ((9 <=? c) && (c <=? 13)) || ((28 <=? c) && (c <=? 32)) || (c =? 0xA0).
End UCD.

(** No decomposition of the excerpt yields two marks of different classes,
    so the canonical reordering step of NFKD has nothing to do. *)
Definition ucd : UnicodeData := {|
  str_lower := flat_map UCD.lower_char;
  nfkd := flat_map UCD.decompose_char;
  combining := UCD.combining_class;
  isalnum := UCD.alnum;
  isspace := UCD.space
|}.

(** ** [difflib.SequenceMatcher(None, a, b).ratio()]

    The Ratcliff-Obershelp count of Python's standard library, with its
    default [autojunk] heuristic: when [b] has 200 characters or more, a
    character occurring more than [len(b) // 100 + 1] times in [b] is
    "popular" and never starts a match, though a match is extended over
    it.  Blocks are found on slices, so indices are relative to them. *)
Module Difflib.

Definition count_occ_char (c : char) (b : str) : nat :=
  List.length (filter (fun x => (x =? c)%N) b).

(** [bpopular], as a predicate on characters *)
Definition popular (b : str) (c : char) : bool :=
  (200 <=? List.length b)%nat &&
  (List.length b / 100 + 1 <? count_occ_char c b)%nat.

Section Blocks.
Variable pop : char -> bool.

(** One row of [newj2len]: entry [j] is the length of the match ending
    at [a[i]], [b[j]], or 0 where the dictionary has no entry.
    [prev] is the previous row shifted right by one. *)
Fixpoint j2len_row (ai : char) (b : str) (prev : list nat) : list nat :=
  match b with
  | [] => []
  | bj :: b' =>
      let p := match prev with [] => 0%nat | p :: _ => p end in
      let k := if (ai =? bj)%N && negb (pop bj) then S p else 0%nat in
      k :: j2len_row ai b' (List.tl prev)
  end.

(** The inner loop over [j]: a strictly longer match replaces the best. *)
Fixpoint scan_row (i j : nat) (row : list nat) (best : nat * nat * nat)
  : nat * nat * nat :=
  match row with
  | [] => best
  | k :: row' =>
      let '(_, _, bestsize) := best in
      let best' :=
        if (bestsize <? k)%nat then ((i + 1 - k)%nat, (j + 1 - k)%nat, k)
        else best in
      scan_row i (S j) row' best'
  end.

(** The outer loop over [i]. *)
Fixpoint scan_rows (i : nat) (a b : str) (prev : list nat)
         (best : nat * nat * nat) : nat * nat * nat :=
  match a with
  | [] => best
  | ai :: a' =>
      let row := j2len_row ai b (0%nat :: prev) in
      scan_rows (S i) a' b row (scan_row i 0 row best)
  end.

Fixpoint common_prefix (x y : str) : nat :=
  match x, y with
  | cx :: x', cy :: y' =>
      if (cx =? cy)%N then S (common_prefix x' y') else 0%nat
  | _, _ => 0%nat
  end.

(** [find_longest_match] on the slices [a] and [b]; no character is
    junk, so only the first pair of extension loops can move. *)
Definition find_longest_match (a b : str) : nat * nat * nat :=
  let '(besti, bestj, bestsize) := scan_rows 0 a b [] (0, 0, 0)%nat in
  let back :=
    common_prefix (rev (firstn besti a)) (rev (firstn bestj b)) in
  let besti := (besti - back)%nat in
  let bestj := (bestj - back)%nat in
  let bestsize := (bestsize + back)%nat in
  let fwd :=
    common_prefix (skipn (besti + bestsize) a)
                  (skipn (bestj + bestsize) b) in
  (besti, bestj, (bestsize + fwd)%nat).

(** The sum of the sizes of [get_matching_blocks]: the block, then the
    slices to its left and to its right. *)
Fixpoint matches (fuel : nat) (a b : str) : nat :=
  match fuel with
  | O => 0%nat
  | S fuel' =>
      let '(i, j, k) := find_longest_match a b in
      if (k =? 0)%nat then 0%nat
      else
        (k
         + (if (0 <? i)%nat && (0 <? j)%nat
            then matches fuel' (firstn i a) (firstn j b) else 0)
         + (if (i + k <? List.length a)%nat && (j + k <? List.length b)%nat
            then matches fuel' (skipn (i + k) a) (skipn (j + k) b)
            else 0))%nat
  end.
End Blocks.

(** [_calculate_ratio(matches, len(a) + len(b))] *)
Definition ratio (a b : str) : Q :=
  let length := (List.length a + List.length b)%nat in
  match length with
  | O => 1%Q
  | S _ =>
      let m := matches (popular b) (S (List.length a)) a b in
      Qmake (2 * Z.of_nat m) (Pos.of_nat length)
  end.
End Difflib.

(** ** Dictionaries

    A [dict] keeps its keys in insertion order; [d[k] = v] on a key that
    is present replaces the value where the key stands. *)
Definition dict (V : Type) := list (str * V).

Fixpoint dict_get {V} (k : str) (d : dict V) : option V :=
  match d with
  | [] => None
  | (k', v) :: d' => if str_eqb k k' then Some v else dict_get k d'
  end.

Fixpoint dict_set {V} (k : str) (v : V) (d : dict V) : dict V :=
  match d with
  | [] => [(k, v)]
  | (k', v') :: d' =>
      if str_eqb k k' then (k', v) :: d' else (k', v') :: dict_set k v d'
  end.

(** [k in d] *)
Definition dict_mem {V} (k : str) (d : dict V) : bool :=
  match dict_get k d with Some _ => true | None => false end.

Definition keys {V} (d : dict V) : list str := map fst d.

(** ** Fuzzy matching *)

Definition Qltb (x y : Q) : bool := negb (Qle_bool y x).

Definition similarity (a b : str) : Q :=
  if nonempty a && nonempty b then Difflib.ratio a b else 0%Q.

(** The body of the [for] loop of [best_fuzzy_match]. *)
Definition fuzzy_step (local_name : str) (best : option Z * Q)
           (item : str * Z) : option Z * Q :=
  let '(best_code, best_score) := best in
  let '(cand_name, code) := item in
  let score := similarity local_name cand_name in
  if Qltb best_score score then (Some code, score) else (best_code, best_score).

Definition best_fuzzy_match (local_name : str) (candidates : dict Z)
           (min_score : Q) : option Z * Q :=
  let '(best_code, best_score) :=
    fold_left (fuzzy_step local_name) candidates (None, 0%Q) in
  if Qle_bool min_score best_score then (best_code, best_score)
  else (None, best_score).

(** ** Data model *)

(** An element of the fetched [elements] array. *)
Record element := {
  code : Z;
  first_name : str;
  second_name : str;
  web_name : str
}.

(** An entry of [core/data/football/processed-epl/players.json]. *)
Record player := {
  player_id : str;
  player_name : str;
  photoCode : option Z
}.

(** An entry of [ui/public/data/players.json]; [id] and [basePlayerId]
    are read with [dict.get] and may be missing. *)
Record ui_player := {
  ui_id : option str;
  basePlayerId : option str;
  ui_photoCode : option Z
}.

Definition set_photoCode (p : player) (c : Z) : player :=
  {| player_id := player_id p; player_name := player_name p;
     photoCode := Some c |}.

Definition ui_set_photoCode (p : ui_player) (c : Z) : ui_player :=
  {| ui_id := ui_id p; basePlayerId := basePlayerId p;
     ui_photoCode := Some c |}.

(** The branch of the loop body that assigned the photo code. *)
Inductive tier := Exact | Containment | Fuzzy.

Definition MIN_SCORE : Q := (86 # 100)%Q.

Section Reconcile.
Variable U : UnicodeData.

(** *** The lookup index (lines 47-55) *)

Definition add_element (lookup : dict Z) (p : element) : dict Z :=
  let full := normalize U (first_name p ++ [SPACE] ++ second_name p) in
  let web := normalize U (web_name p) in
  let lookup := dict_set full (code p) lookup in
  let lookup := dict_set web (code p) lookup in
  dict_set (normalize U (second_name p)) (code p) lookup.

Definition fpl_lookup (fpl_elements : list element) : dict Z :=
  fold_left add_element fpl_elements [].

(** *** The three tiers (lines 63-85) *)

Definition contains (fpl_name local_name : str) : bool :=
  nonempty fpl_name &&
  (str_in fpl_name local_name || str_in local_name fpl_name).

(** The containment loop: [hit] is the code of the first key that passes
    the test, in the order of [items()]. *)
Fixpoint containment (local_name : str) (lookup : dict Z) : option Z :=
  match lookup with
  | [] => None
  | (fpl_name, code) :: rest =>
      if contains fpl_name local_name then Some code
      else containment local_name rest
  end.

(** What the loop body decides for one normalised name. *)
Definition resolve (local_name : str) (lookup : dict Z) : option (Z * tier) :=
  match dict_get local_name lookup with
  | Some c => Some (c, Exact)
  | None =>
      match containment local_name lookup with
      | Some hit => Some (hit, Containment)
      | None =>
          match fst (best_fuzzy_match local_name lookup MIN_SCORE) with
          | Some c => Some (c, Fuzzy)
          | None => None
          end
      end
  end.

(** *** The reconciliation loop (lines 57-85) *)

Record counters := { matches : Z; fuzzy_matches : Z }.

Definition reconcile_player (lookup : dict Z) (p : player) (n : counters)
  : player * counters :=
  match resolve (normalize U (player_name p)) lookup with
  | Some (c, Fuzzy) =>
      (set_photoCode p c,
       {| matches := matches n + 1; fuzzy_matches := fuzzy_matches n + 1 |})
  | Some (c, _) =>
      (set_photoCode p c,
       {| matches := matches n + 1; fuzzy_matches := fuzzy_matches n |})
  | None => (p, n)
  end.

Fixpoint reconcile_from (lookup : dict Z) (local_players : list player)
         (n : counters) : list player * counters :=
  match local_players with
  | [] => ([], n)
  | p :: rest =>
      let '(p', n') := reconcile_player lookup p n in
      let '(rest', n'') := reconcile_from lookup rest n' in
      (p' :: rest', n'')
  end.

Definition reconcile (lookup : dict Z) (local_players : list player)
  : list player * counters :=
  reconcile_from lookup local_players {| matches := 0; fuzzy_matches := 0 |}.
End Reconcile.

(** ** Propagation into the UI players (lines 98-104) *)

(** [x or y] on values read with [dict.get]: a missing or empty string is
    falsy. *)
Definition or_str (x : option str) (y : str) : str :=
  match x with
  | Some ((_ :: _) as s) => s
  | _ => y
  end.

(** [s.split('-')[0]] *)
Definition split_head (s : str) : str :=
  take_while (fun c => negb (c =? HYPHEN)%N) s.

Definition base_id (p : ui_player) : str :=
  split_head (or_str (basePlayerId p) (or_str (ui_id p) [])).

(** [{p['id']: p.get('photoCode') for p in local_players if p.get('photoCode')}];
    a photo code of 0 is falsy. *)
Definition core_map (local_players : list player) : dict Z :=
  fold_left
    (fun m p =>
       match photoCode p with
       | Some c => if (c =? 0)%Z then m else dict_set (player_id p) c m
       | None => m
       end)
    local_players [].

Definition sync_player (m : dict Z) (p : ui_player) (synced : Z)
  : ui_player * Z :=
  match dict_get (base_id p) m with
  | Some c => (ui_set_photoCode p c, (synced + 1)%Z)
  | None => (p, synced)
  end.

Fixpoint sync_from (m : dict Z) (ui_players : list ui_player) (synced : Z)
  : list ui_player * Z :=
  match ui_players with
  | [] => ([], synced)
  | p :: rest =>
      let '(p', synced') := sync_player m p synced in
      let '(rest', synced'') := sync_from m rest synced' in
      (p' :: rest', synced'')
  end.

Definition propagate (ui_players : list ui_player) (local_players : list player)
  : list ui_player * Z :=
  sync_from (core_map local_players) ui_players 0%Z.

(** ** Vocabulary of the statements and example data *)

(** Start plus size of a block: where it ends in [a]. *)
Definition block_end (best : nat * nat * nat) : nat :=
  (fst (fst best) + snd best)%nat.

(** The shape of a normalised name.  A character of it is the space put
    for a run of white space, or a word character that is not white space;
    no two white-space characters are adjacent; neither end is white
    space. *)
Definition name_char (U : UnicodeData) (c : char) : Prop :=
  c = SPACE \/ (isspace U c = false /\ is_word U c = true).

Fixpoint single_spaced (U : UnicodeData) (s : str) : Prop :=
  match s with
  | c :: t =>
      match t with
      | d :: _ => (isspace U c = true -> isspace U d = false)
      | [] => True
      end /\ single_spaced U t
  | [] => True
  end.

Definition trimmed (U : UnicodeData) (s : str) : Prop :=
  (forall c t, s = c :: t -> isspace U c = false) /\
  (forall c t, s = t ++ [c] -> isspace U c = false).

(** A string that lowercasing, decomposition and the removal of combining
    marks leave as it is. *)
Definition case_and_accent_free (U : UnicodeData) (s : str) : Prop :=
  str_lower U s = s /\ nfkd U s = s /\
  Forall (fun c => combining U c = 0%N) s.

(** [needle] occurs in [hay] as a contiguous block. *)
Definition Substring (needle hay : str) : Prop :=
  exists l r, hay = l ++ needle ++ r.

(** Whether some tier assigns a code to the player, and whether the fuzzy
    tier does. *)
Definition is_matched (U : UnicodeData) (lookup : dict Z) (p : player) : bool :=
  match resolve (normalize U (player_name p)) lookup with
  | Some _ => true
  | None => false
  end.

Definition is_fuzzy_matched (U : UnicodeData) (lookup : dict Z) (p : player)
  : bool :=
  match resolve (normalize U (player_name p)) lookup with
  | Some (_, Fuzzy) => true
  | _ => false
  end.

Definition Z_of_bool (b : bool) : Z := if b then 1%Z else 0%Z.

(** The end-to-end example of the specification. *)
Definition salah_element : element :=
  {| code := 101; first_name := py "Mohamed"; second_name := py "Salah";
     web_name := py "Salah" |}.

Definition mo_salah : player :=
  {| player_id := py "1"; player_name := py "Mo Salah"; photoCode := None |}.

(** The propagation example, and a derived record whose [basePlayerId] is
    the empty string. *)
Definition local_1 : player :=
  {| player_id := py "1"; player_name := []; photoCode := Some 101%Z |}.

Definition variant_A : ui_player :=
  {| ui_id := None; basePlayerId := Some (py "1-variantA");
     ui_photoCode := None |}.

Definition empty_base : ui_player :=
  {| ui_id := Some (py "1"); basePlayerId := Some []; ui_photoCode := None |}.

Definition sonny_lookup : dict Z := [(py "son", 1%Z); (py "sonny", 2%Z)].

Definition sonny_boy_lookup : dict Z :=
  [(py "salah", 9%Z); (py "son", 1%Z); (py "sonny boy", 2%Z)].


Definition punctuation_only : player :=
  {| player_id := py "7"; player_name := py "?!"; photoCode := None |}.

(** The three keys under which an element is stored in the index. *)
Definition element_keys (U : UnicodeData) (p : element) : list str :=
  [normalize U (first_name p ++ [SPACE] ++ second_name p);
   normalize U (web_name p);
   normalize U (second_name p)].

(** The script between its reads and its writes (lines 47-104): build the
    index, reconcile the local players, sync the UI players from them. *)
Definition run (U : UnicodeData) (fpl_elements : list element)
           (local_players : list player) (ui_players : list ui_player)
  : list player * counters * (list ui_player * Z) :=
  let '(local_players', n) :=
    reconcile U (fpl_lookup U fpl_elements) local_players in
  (local_players', n, propagate ui_players local_players').

(** Whether the UI player is joined to a local player by [core_map]. *)
Definition is_synced (m : dict Z) (p : ui_player) : bool :=
  dict_mem (base_id p) m.

(** [p.get('photoCode')] is truthy. *)
Definition has_photoCode (p : player) : bool :=
  match photoCode p with
  | Some c => negb (c =? 0)%Z
  | None => false
  end.

Definition ann_lee : element :=
  {| code := 1; first_name := py "Ann"; second_name := py "Lee";
     web_name := py "Lee" |}.

Definition bob_lee : element :=
  {| code := 2; first_name := py "Bob"; second_name := py "Lee";
     web_name := py "B.Lee" |}.

(** Where a block ends in [b], and a row of match lengths whose entry
    in column [j], [j + 1], ... is at most [j], [j + 1], ... *)
Definition block_end_b (best : nat * nat * nat) : nat :=
  (snd (fst best) + snd best)%nat.

Fixpoint row_le (j : nat) (row : list nat) : Prop :=
  match row with
  | [] => True
  | k :: row' => (k <= j)%nat /\ row_le (S j) row'
  end.

(** How the key that gave a code relates to the local name, by tier. *)
Definition tier_relation (t : tier) (local_name k : str) : Prop :=
  match t with
  | Exact => k = local_name
  | Containment =>
      k <> [] /\ (Substring k local_name \/ Substring local_name k)
  | Fuzzy =>
      (MIN_SCORE <= similarity local_name k)%Q /\ local_name <> [] /\ k <> []
  end.

(** What the loop body of the reconciliation makes of a player, and the
    loop body of the sync of a UI player. *)
Definition updated (U : UnicodeData) (lookup : dict Z) (p : player) : player :=
  match resolve (normalize U (player_name p)) lookup with
  | Some (c, _) => set_photoCode p c
  | None => p
  end.

Definition ui_updated (m : dict Z) (p : ui_player) : ui_player :=
  match dict_get (base_id p) m with
  | Some c => ui_set_photoCode p c
  | None => p
  end.

(** The step of the comprehension that builds [core_map]. *)
Definition core_step (m : dict Z) (p : player) : dict Z :=
  match photoCode p with
  | Some c => if (c =? 0)%Z then m else dict_set (player_id p) c m
  | None => m
  end.

Definition hyphen_local : player :=
  {| player_id := py "1-a"; player_name := py "Mo Salah";
     photoCode := Some 5%Z |}.

Definition hyphen_ui : ui_player :=
  {| ui_id := Some (py "1-a"); basePlayerId := None; ui_photoCode := None |}.

(** A UI player whose id is the id of no local player of the examples. *)
Definition stranger_ui : ui_player :=
  {| ui_id := Some (py "zz"); basePlayerId := None; ui_photoCode := None |}.

(** ASCII characters, and the characters of a normalised ASCII name:
    [a-z], [0-9], the underscore and the space. *)
Definition is_ascii (c : char) : bool := (c <? 128)%N.

Definition plain_char (c : char) : bool :=
  UCD.ascii_lower c || UCD.ascii_digit c ||
  (c =? UNDERSCORE)%N || (c =? SPACE)%N.

(** An ASCII character that is not a capital letter. *)
Definition uncapitalised (c : char) : bool :=
  is_ascii c && negb (UCD.ascii_upper c).

(** For a string compared with itself: the number of characters that
    are not popular at the end of its first [n] characters, and what the
    row of match lengths before row [i] satisfies. *)
Definition diag_run (pop : char -> bool) (a : str) (n : nat) : nat :=
  List.length (take_while (fun c => negb (pop c)) (rev (firstn n a))).

Definition prev_ok (pop : char -> bool) (a : str) (i : nat)
           (prev : list nat) : Prop :=
  forall j,
    (nth j prev 0 <= diag_run pop a (S j))%nat /\
    (nth j prev 0 <= diag_run pop a i)%nat /\
    (i = S j -> nth j prev 0%nat = diag_run pop a i).

(** * Properties *)

(** ** The matching blocks are counted with enough fuel *)

Section DifflibFuel.
Variable pop : char -> bool.

Lemma j2len_row_bound (i : nat) (ai : char) (b : str) (prev : list nat) :
  Forall (fun p => p <= i)%nat prev ->
  Forall (fun k => k <= S i)%nat (Difflib.j2len_row pop ai b prev).
Proof.
  revert prev; induction b as [|bj b IH]; intros prev Hprev; simpl;
    constructor.
  - destruct ((ai =? bj)%N && negb (pop bj)); [|lia].
    destruct Hprev; simpl; lia.
  - apply IH; destruct Hprev; simpl; auto.
Qed.

Lemma scan_row_bound (i j : nat) (row : list nat) (best : nat * nat * nat) :
  Forall (fun k => k <= S i)%nat row ->
  (block_end best <= S i)%nat ->
  (block_end (Difflib.scan_row i j row best) <= S i)%nat.
Proof.
  revert j best; induction row as [|k row IH]; intros j [[bi bj] bs] Hrow Hb;
    simpl; trivial.
  inversion Hrow as [|? ? Hk Hrow']; subst.
  apply IH; trivial.
  destruct (bs <? k)%nat; trivial.
  unfold block_end; simpl; lia.
Qed.

Lemma scan_rows_bound (i : nat) (a b : str) (prev : list nat)
      (best : nat * nat * nat) :
  Forall (fun p => p <= i)%nat prev ->
  (block_end best <= i)%nat ->
  (block_end (Difflib.scan_rows pop i a b prev best) <= i + List.length a)%nat.
Proof.
  revert i prev best; induction a as [|ai a IH]; intros i prev best Hprev Hb;
    simpl; [lia|].
  assert (Hrow : Forall (fun k => k <= S i)%nat
                        (Difflib.j2len_row pop ai b (0%nat :: prev)))
    by (apply j2len_row_bound; constructor; [lia | trivial]).
  specialize (IH (S i) (Difflib.j2len_row pop ai b (0%nat :: prev))
                 (Difflib.scan_row i 0 (Difflib.j2len_row pop ai b (0%nat :: prev)) best)
                 Hrow).
  assert (Hs : (block_end (Difflib.scan_row i 0
                  (Difflib.j2len_row pop ai b (0%nat :: prev)) best) <= S i)%nat)
    by (apply scan_row_bound; [trivial | lia]).
  specialize (IH Hs); lia.
Qed.

Lemma common_prefix_le (x y : str) :
  (Difflib.common_prefix x y <= List.length x)%nat.
Proof.
  revert y; induction x as [|cx x IH]; intros [|cy y]; simpl; try lia.
  destruct (cx =? cy)%N; [specialize (IH y) |]; lia.
Qed.

(** The block that [find_longest_match] returns lies within [a]. *)
Lemma find_longest_match_bound (a b : str) :
  (block_end (Difflib.find_longest_match pop a b) <= List.length a)%nat.
Proof.
  unfold Difflib.find_longest_match.
  pose proof (scan_rows_bound 0 a b [] (0, 0, 0)%nat (Forall_nil _)) as H.
  destruct (Difflib.scan_rows pop 0 a b [] (0, 0, 0)%nat) as [[bi bj] bs].
  unfold block_end in *; simpl in *.
  specialize (H (Nat.le_refl 0)).
  pose proof (common_prefix_le (rev (firstn bi a)) (rev (firstn bj b))) as Hback.
  rewrite length_rev, length_firstn in Hback.
  set (back := Difflib.common_prefix (rev (firstn bi a)) (rev (firstn bj b))) in *.
  pose proof (common_prefix_le (skipn (bi - back + (bs + back)) a)
                               (skipn (bj - back + (bs + back)) b)) as Hfwd.
  rewrite length_skipn in Hfwd.
  lia.
Qed.

(** Any fuel above the length of [a] gives the same count: the slices on
    both sides of a block are shorter than [a]. *)
Lemma matches_fuel (fuel fuel' : nat) (a b : str) :
  (List.length a < fuel)%nat -> (List.length a < fuel')%nat ->
  Difflib.matches pop fuel a b = Difflib.matches pop fuel' a b.
Proof.
  revert fuel' a b; induction fuel as [|fuel IH]; intros [|fuel'] a b Hf Hf';
    try lia.
  simpl.
  pose proof (find_longest_match_bound a b) as Hb.
  destruct (Difflib.find_longest_match pop a b) as [[i j] k].
  unfold block_end in Hb; simpl in Hb.
  destruct (Nat.eqb_spec k 0) as [Hk|Hk]; trivial.
  f_equal; [f_equal|].
  - destruct ((0 <? i)%nat && (0 <? j)%nat); trivial.
    apply IH; rewrite length_firstn; lia.
  - destruct ((i + k <? List.length a)%nat && (j + k <? List.length b)%nat);
      trivial.
    apply IH; rewrite length_skipn; lia.
Qed.
End DifflibFuel.

(** [ratio] runs [matches] with fuel [len(a) + 1]; more fuel finds no
    further block. *)
Lemma ratio_fuel_enough (a b : str) (fuel : nat) :
  (List.length a < fuel)%nat ->
  Difflib.matches (Difflib.popular b) fuel a b
  = Difflib.matches (Difflib.popular b) (S (List.length a)) a b.
Proof. intros H; apply matches_fuel; lia. Qed.

(** ** Strings and dictionaries *)

Lemma str_eqb_eq (a b : str) : str_eqb a b = true <-> a = b.
Proof.
  revert b; induction a as [|x a IH]; intros [|y b]; simpl; split;
    try congruence; try reflexivity.
  - intros H; apply andb_true_iff in H as [Hx Hab].
    apply N.eqb_eq in Hx; apply IH in Hab; congruence.
  - intros H; injection H as -> ->.
    rewrite N.eqb_refl; simpl; now apply IH.
Qed.

Lemma str_eqb_refl (a : str) : str_eqb a a = true.
Proof. now apply str_eqb_eq. Qed.

Lemma starts_with_spec (needle hay : str) :
  starts_with needle hay = true <-> exists r, hay = needle ++ r.
Proof.
  revert hay; induction needle as [|x n IH]; intros hay; simpl.
  - split; [intros _; now exists hay | reflexivity].
  - destruct hay as [|y h].
    + split; [discriminate | intros [r Hr]; discriminate].
    + rewrite andb_true_iff, N.eqb_eq, IH; split.
      * intros [-> [r ->]]; now exists r.
      * intros [r Hr]; injection Hr as -> ->; split; [reflexivity | now exists r].
Qed.

Lemma str_in_spec (needle hay : str) :
  str_in needle hay = true <-> Substring needle hay.
Proof.
  unfold Substring; induction hay as [|y h IH].
  - simpl; rewrite orb_false_r, starts_with_spec; split.
    + intros [r Hr]; now exists [], r.
    + intros [[|z l] [r Hr]]; [now exists r | discriminate].
  - change (str_in needle (y :: h))
      with (starts_with needle (y :: h) || str_in needle h).
    rewrite orb_true_iff, starts_with_spec, IH; split.
    + intros [[r Hr] | [l [r Hr]]].
      * now exists [], r.
      * exists (y :: l), r; simpl; now rewrite Hr.
    + intros [[|z l] [r Hr]].
      * left; now exists r.
      * right; injection Hr as _ Hr; now exists l, r.
Qed.

Lemma nonempty_spec (s : str) : nonempty s = true <-> s <> [].
Proof. destruct s; simpl; split; congruence. Qed.

Lemma Substring_nil (hay : str) : Substring [] hay.
Proof. now exists [], hay. Qed.

Lemma dict_get_in {V} (k : str) (d : dict V) :
  In k (keys d) <-> exists v, dict_get k d = Some v.
Proof.
  induction d as [|[k' v'] d IH]; simpl.
  - split; [tauto | intros [v Hv]; discriminate].
  - destruct (str_eqb k k') eqn:E.
    + apply str_eqb_eq in E; subst; split; [now exists v' | now left].
    + rewrite <- IH; split; [intros [->|H] | tauto]; trivial.
      now rewrite str_eqb_refl in E.
Qed.

Lemma dict_get_app_None {V} (k : str) (d1 d2 : dict V) :
  dict_get k (d1 ++ d2) = None -> dict_get k d1 = None /\ dict_get k d2 = None.
Proof.
  induction d1 as [|[k' v'] d1 IH]; simpl; [tauto|].
  destruct (str_eqb k k'); [discriminate | exact IH].
Qed.

(** ** The containment tier *)

Section Tiers.
Variable U : UnicodeData.

Lemma contains_spec (fpl_name local_name : str) :
  contains fpl_name local_name = true <->
  fpl_name <> [] /\
  (Substring fpl_name local_name \/ Substring local_name fpl_name).
Proof.
  unfold contains.
  now rewrite andb_true_iff, orb_true_iff, nonempty_spec, !str_in_spec.
Qed.

Lemma containment_first (local_name : str) (pre post : dict Z) (k : str) (c : Z) :
  (forall k' c', In (k', c') pre -> contains k' local_name = false) ->
  contains k local_name = true ->
  containment local_name (pre ++ (k, c) :: post) = Some c.
Proof.
  intros Hpre Hk; induction pre as [|[k' c'] pre IH]; simpl.
  - now rewrite Hk.
  - rewrite (Hpre k' c') by now left.
    apply IH; intros; apply (Hpre k'0 c'0); now right.
Qed.

Lemma reconcile_player_hit (lookup : dict Z) (p : player) (n : counters)
      (c : Z) (t : tier) :
  resolve (normalize U (player_name p)) lookup = Some (c, t) ->
  t <> Fuzzy ->
  reconcile_player U lookup p n =
  (set_photoCode p c,
   {| matches := matches n + 1; fuzzy_matches := fuzzy_matches n |}).
Proof.
  unfold reconcile_player; intros -> Ht; destruct t; congruence.
Qed.
End Tiers.

Lemma resolve_containment (lookup pre post : dict Z) (local_name k : str) (c : Z) :
  lookup = pre ++ (k, c) :: post ->
  ~ In local_name (keys lookup) ->
  (forall k' c', In (k', c') pre ->
     ~ (k' <> [] /\ (Substring k' local_name \/ Substring local_name k'))) ->
  k <> [] ->
  Substring k local_name \/ Substring local_name k ->
  containment local_name lookup = Some c /\
  resolve local_name lookup = Some (c, Containment).
Proof.
  intros -> Hnot Hpre Hk Hsub.
  assert (Hc : containment local_name (pre ++ (k, c) :: post) = Some c).
  { apply containment_first.
    - intros k' c' Hin; specialize (Hpre k' c' Hin).
      destruct (contains k' local_name) eqn:E; trivial.
      apply contains_spec in E; contradiction.
    - apply contains_spec; now split. }
  split; trivial.
  unfold resolve; rewrite Hc.
  destruct (dict_get local_name (pre ++ (k, c) :: post)) as [v|] eqn:E; trivial.
  exfalso; apply Hnot, dict_get_in; now exists v.
Qed.

(** In a dictionary, whose keys are distinct, a key gives the value it
    is stored with. *)
Lemma dict_get_of_in {V} (k : str) (v : V) (d : dict V) :
  NoDup (keys d) -> In (k, v) d -> dict_get k d = Some v.
Proof.
  induction d as [|[k' v'] d IH]; simpl; [tauto|].
  intros Hnd [Heq | Hin].
  - injection Heq as -> ->; now rewrite str_eqb_refl.
  - inversion Hnd as [|? ? Hnotin Hnd']; subst.
    destruct (str_eqb k k') eqn:E; [|now apply IH].
    apply str_eqb_eq in E; subst k'.
    exfalso; apply Hnotin; apply in_map_iff; now exists (k, v).
Qed.

(** C1. A local name that is a key of the index is resolved by the exact
    tier to the code that the index stores with that key, whatever the
    other keys are and however they score: the result does not depend on
    the containment or the fuzzy tier.  The player gets that code as its
    [photoCode], keeps its id and name, and is counted as matched but not
    as fuzzy matched. *)
Theorem exact_tier_precedence :
  forall (U : UnicodeData) (lookup : dict Z) (local_name : str) (c : Z),
    NoDup (keys lookup) ->
    In (local_name, c) lookup ->
    resolve local_name lookup = Some (c, Exact) /\
    forall (p : player) (n : counters),
      normalize U (player_name p) = local_name ->
      reconcile_player U lookup p n =
      ({| player_id := player_id p; player_name := player_name p;
          photoCode := Some c |},
       {| matches := matches n + 1; fuzzy_matches := fuzzy_matches n |}).
Proof.
  intros U lookup local_name c Hnd Hin.
  pose proof (dict_get_of_in local_name c lookup Hnd Hin) as Hc.
  assert (Hr : resolve local_name lookup = Some (c, Exact))
    by (unfold resolve; now rewrite Hc).
  split; trivial.
  intros p n Hp.
  change {| player_id := player_id p; player_name := player_name p;
            photoCode := Some c |} with (set_photoCode p c).
  apply reconcile_player_hit with (t := Exact);
    [now rewrite Hp | discriminate].
Qed.

(** C2. When the local name is not a key of the index, the containment
    tier returns the code of the first key, in insertion order, that is
    not empty and is a substring of the local name or has the local name
    as a substring; later keys that also qualify do not matter. *)
Theorem containment_first_match :
  forall (lookup pre post : dict Z) (local_name k : str) (c : Z),
    lookup = pre ++ (k, c) :: post ->
    ~ In local_name (keys lookup) ->
    (forall k' c', In (k', c') pre ->
       ~ (k' <> [] /\ (Substring k' local_name \/ Substring local_name k'))) ->
    k <> [] ->
    Substring k local_name \/ Substring local_name k ->
    containment local_name lookup = Some c /\
    resolve local_name lookup = Some (c, Containment).
Proof.
  intros lookup pre post local_name k c Hl Hnot Hpre Hk Hsub.
  now apply (resolve_containment lookup pre post local_name k c).
Qed.

(** ** The fuzzy tier *)

Lemma Qltb_lt (x y : Q) : Qltb x y = true <-> (x < y)%Q.
Proof.
  unfold Qltb; rewrite negb_true_iff; split.
  - intros H; apply Qnot_le_lt; intros Hle.
    apply Qle_bool_iff in Hle; congruence.
  - intros H; destruct (Qle_bool y x) eqn:E; trivial.
    apply Qle_bool_iff in E; exfalso; now apply (Qlt_not_le x y).
Qed.

Lemma Qltb_ge (x y : Q) : Qltb x y = false <-> (y <= x)%Q.
Proof.
  unfold Qltb; rewrite negb_false_iff; apply Qle_bool_iff.
Qed.

Section BestFuzzy.
Variable local_name : str.

(** A candidate that does not beat the best score leaves the state as
    it is: this is where ties go to the earlier key. *)
Lemma fuzzy_step_keep (bc : option Z) (bs : Q) (k : str) (c : Z) :
  (similarity local_name k <= bs)%Q ->
  fuzzy_step local_name (bc, bs) (k, c) = (bc, bs).
Proof.
  intros H; unfold fuzzy_step; apply Qltb_ge in H; now rewrite H.
Qed.

Lemma fuzzy_step_take (bc : option Z) (bs : Q) (k : str) (c : Z) :
  (bs < similarity local_name k)%Q ->
  fuzzy_step local_name (bc, bs) (k, c) = (Some c, similarity local_name k).
Proof.
  intros H; unfold fuzzy_step; apply Qltb_lt in H; now rewrite H.
Qed.

Lemma fuzzy_loop_keep (l : dict Z) (bc : option Z) (bs : Q) :
  (forall k c, In (k, c) l -> (similarity local_name k <= bs)%Q) ->
  fold_left (fuzzy_step local_name) l (bc, bs) = (bc, bs).
Proof.
  induction l as [|[k c] l IH]; intros H; cbn [fold_left]; trivial.
  rewrite fuzzy_step_keep by (apply (H k c); now left).
  apply IH; intros; apply (H k0 c0); now right.
Qed.


End BestFuzzy.


(** ** The reconciliation loop *)

Section ReconcileFacts.
Variable U : UnicodeData.
Variable lookup : dict Z.

Lemma reconcile_player_miss (p : player) (n : counters) :
  is_matched U lookup p = false ->
  reconcile_player U lookup p n = (p, n).
Proof.
  unfold is_matched, reconcile_player.
  destruct (resolve (normalize U (player_name p)) lookup) as [[c t]|];
    [discriminate | reflexivity].
Qed.

(** One iteration adds the player to [matches] when a tier fires, and to
    [fuzzy_matches] when that tier is the fuzzy one. *)
Lemma reconcile_player_counters (p : player) (n : counters) :
  let n' := snd (reconcile_player U lookup p n) in
  matches n' = (matches n + Z_of_bool (is_matched U lookup p))%Z /\
  fuzzy_matches n' =
    (fuzzy_matches n + Z_of_bool (is_fuzzy_matched U lookup p))%Z.
Proof.
  unfold is_matched, is_fuzzy_matched, reconcile_player.
  destruct (resolve (normalize U (player_name p)) lookup) as [[c []]|];
    simpl; lia.
Qed.

Lemma fuzzy_matched_is_matched (p : player) :
  is_fuzzy_matched U lookup p = true -> is_matched U lookup p = true.
Proof.
  unfold is_matched, is_fuzzy_matched.
  now destruct (resolve (normalize U (player_name p)) lookup) as [[c []]|].
Qed.

Lemma reconcile_from_length (l : list player) (n : counters) :
  List.length (fst (reconcile_from U lookup l n)) = List.length l.
Proof.
  revert n; induction l as [|p l IH]; intros n; simpl; trivial.
  destruct (reconcile_player U lookup p n) as [p' n'].
  specialize (IH n').
  destruct (reconcile_from U lookup l n') as [l' n'']; simpl in *; congruence.
Qed.

Lemma reconcile_from_miss (l : list player) (n : counters) (i : nat)
      (p : player) :
  nth_error l i = Some p ->
  is_matched U lookup p = false ->
  nth_error (fst (reconcile_from U lookup l n)) i = Some p.
Proof.
  revert n i; induction l as [|q l IH]; intros n [|i] Hi Hp;
    try discriminate; simpl in *.
  - injection Hi as ->.
    rewrite reconcile_player_miss by trivial.
    now destruct (reconcile_from U lookup l n).
  - destruct (reconcile_player U lookup q n) as [q' n'].
    specialize (IH n' i Hi Hp).
    now destruct (reconcile_from U lookup l n').
Qed.

Lemma reconcile_from_matches (l : list player) (n : counters) :
  matches (snd (reconcile_from U lookup l n)) =
  (matches n + Z.of_nat (List.length (filter (is_matched U lookup) l)))%Z.
Proof.
  revert n; induction l as [|p l IH]; intros n; simpl; [lia|].
  pose proof (reconcile_player_counters p n) as [Hm _].
  destruct (reconcile_player U lookup p n) as [p' n'].
  specialize (IH n').
  destruct (reconcile_from U lookup l n') as [l' n'']; simpl in *.
  rewrite IH, Hm.
  destruct (is_matched U lookup p); simpl; lia.
Qed.

Lemma reconcile_from_bounds (l : list player) (n : counters) :
  let n' := snd (reconcile_from U lookup l n) in
  (fuzzy_matches n <= fuzzy_matches n')%Z /\
  (fuzzy_matches n' - fuzzy_matches n <= matches n' - matches n)%Z /\
  (matches n' - matches n <= Z.of_nat (List.length l))%Z.
Proof.
  revert n; induction l as [|p l IH]; intros n; simpl; [lia|].
  pose proof (reconcile_player_counters p n) as [Hm Hf].
  pose proof (fuzzy_matched_is_matched p) as Himp.
  destruct (reconcile_player U lookup p n) as [p' n'].
  specialize (IH n').
  destruct (reconcile_from U lookup l n') as [l' n'']; simpl in *.
  destruct (is_fuzzy_matched U lookup p), (is_matched U lookup p);
    simpl in *; try (specialize (Himp eq_refl); discriminate); lia.
Qed.
End ReconcileFacts.

(** C7. Reconciliation keeps the players in place and leaves a player
    that no tier matches exactly as it was, its [photoCode] included; the
    matched total counts the players that some tier matches and no
    others. *)
Theorem unmatched_left_unchanged :
  forall (U : UnicodeData) (lookup : dict Z) (local_players : list player),
    let r := reconcile U lookup local_players in
    List.length (fst r) = List.length local_players /\
    (forall (i : nat) (p : player),
        nth_error local_players i = Some p ->
        resolve (normalize U (player_name p)) lookup = None ->
        nth_error (fst r) i = Some p) /\
    matches (snd r) =
      Z.of_nat (List.length (filter (is_matched U lookup) local_players)).
Proof.
  intros U lookup local_players r; subst r; unfold reconcile.
  split; [apply reconcile_from_length | split].
  - intros i p Hi Hres; apply reconcile_from_miss; trivial.
    unfold is_matched; now rewrite Hres.
  - now rewrite reconcile_from_matches.
Qed.

(** C9. The report satisfies 0 <= fuzzyMatched <= matched <= totalPlayers.
    One iteration either leaves both counters alone or adds one to
    [matches], and it adds one to [fuzzy_matches] only together with
    [matches]. *)
Theorem report_counters_ordered :
  forall (U : UnicodeData) (lookup : dict Z) (local_players : list player),
    let n := snd (reconcile U lookup local_players) in
    (0 <= fuzzy_matches n <= matches n)%Z /\
    (matches n <= Z.of_nat (List.length local_players))%Z /\
    forall (p : player) (m : counters),
      let m' := snd (reconcile_player U lookup p m) in
      m' = m \/
      (matches m' = matches m + 1 /\
       (fuzzy_matches m' = fuzzy_matches m \/
        fuzzy_matches m' = fuzzy_matches m + 1))%Z.
Proof.
  intros U lookup local_players n; subst n; unfold reconcile.
  pose proof (reconcile_from_bounds U lookup local_players
                {| matches := 0; fuzzy_matches := 0 |}) as H.
  simpl in H; repeat split; try lia.
  intros p m; unfold reconcile_player.
  destruct (resolve (normalize U (player_name p)) lookup) as [[c []]|];
    simpl; auto.
Qed.

(** C10. A player whose name normalises to the empty string is not left
    unmatched by an index without the empty key and with a non-empty key:
    the containment tier answers with the code of the first non-empty key
    in insertion order, the empty string being a substring of it, and the
    player gets that code as its [photoCode], keeps its id and name, and
    is counted as matched. *)
Theorem empty_name_takes_first_key :
  forall (U : UnicodeData) (lookup pre post : dict Z) (k : str) (c : Z)
         (p : player) (n : counters),
    normalize U (player_name p) = [] ->
    ~ In [] (keys lookup) ->
    lookup = pre ++ (k, c) :: post ->
    (forall k' c', In (k', c') pre -> k' = []) ->
    k <> [] ->
    resolve (normalize U (player_name p)) lookup = Some (c, Containment) /\
    reconcile_player U lookup p n =
    ({| player_id := player_id p; player_name := player_name p;
        photoCode := Some c |},
     {| matches := matches n + 1; fuzzy_matches := fuzzy_matches n |}).
Proof.
  intros U lookup pre post k c p n Hname Hnokey Hlookup Hpre Hk.
  assert (Hr : resolve (normalize U (player_name p)) lookup
               = Some (c, Containment)).
  { rewrite Hname.
    apply (resolve_containment lookup pre post [] k c); trivial.
    - intros k' c' Hin [Hne _]; apply Hne; now apply (Hpre k' c').
    - right; apply Substring_nil. }
  split; trivial.
  change {| player_id := player_id p; player_name := player_name p;
            photoCode := Some c |} with (set_photoCode p c).
  apply reconcile_player_hit with (t := Containment); [trivial | discriminate].
Qed.

(** ** The shape of a normalised name *)

Lemma drop_while_head (f : char -> bool) (s : str) (c : char) (t : str) :
  drop_while f s = c :: t -> f c = false.
Proof.
  induction s as [|x s IH]; simpl; [discriminate|].
  destruct (f x) eqn:E; trivial.
  intros H; injection H as <- _; exact E.
Qed.

Lemma drop_while_suffix (f : char -> bool) (s : str) :
  exists p, s = p ++ drop_while f s.
Proof.
  induction s as [|x s [p IH]]; simpl; [now exists []|].
  destruct (f x); [exists (x :: p); simpl; congruence | now exists []].
Qed.

(** What [strip] returns is a prefix of the string without its leading
    white space. *)
Lemma rev_drop_while_prefix (f : char -> bool) (s : str) :
  exists q, s = rev (drop_while f (rev s)) ++ q.
Proof.
  destruct (drop_while_suffix f (rev s)) as [p Hp].
  exists (rev p).
  rewrite <- rev_app_distr, <- Hp; symmetry; apply rev_involutive.
Qed.

Section Shape.
Variable U : UnicodeData.

Lemma single_spaced_app_r (x y : str) :
  single_spaced U (x ++ y) -> single_spaced U y.
Proof.
  induction x as [|c x IH]; simpl; trivial.
  intros [_ H]; now apply IH.
Qed.

Lemma single_spaced_app_l (x y : str) :
  single_spaced U (x ++ y) -> single_spaced U x.
Proof.
  induction x as [|c x IH]; simpl; trivial.
  intros [Hc H]; split; [|now apply IH].
  destruct x as [|d x]; simpl in *; trivial.
Qed.

Lemma collapse_ws_chars (in_run : bool) (s : str) :
  Forall (fun c => is_word U c || isspace U c = true) s ->
  Forall (name_char U) (collapse_ws U in_run s).
Proof.
  intros H; revert in_run; induction H as [|c s Hc _ IH]; intros in_run;
    simpl; [constructor|].
  destruct (isspace U c) eqn:E.
  - destruct in_run; [apply IH | constructor; [now left | apply IH]].
  - constructor; [|apply IH].
    right; split; trivial.
    now rewrite orb_false_r in Hc.
Qed.

(** After a character of a run nothing white follows, and no two white
    characters are adjacent. *)
Lemma collapse_ws_spaced (in_run : bool) (s : str) :
  (in_run = true ->
   forall c t, collapse_ws U in_run s = c :: t -> isspace U c = false) /\
  single_spaced U (collapse_ws U in_run s).
Proof.
  revert in_run; induction s as [|x s IH]; intros in_run; simpl.
  - split; [discriminate | trivial].
  - destruct (isspace U x) eqn:E.
    + destruct in_run.
      * apply IH.
      * split; [discriminate|].
        destruct (IH true) as [Hhead Hs]; simpl; split; trivial.
        destruct (collapse_ws U true s) as [|d r] eqn:Er; trivial.
        intros _; now apply (Hhead eq_refl d r).
    + destruct (IH false) as [_ Hs]; split.
      * intros _ c t H; injection H as <- _; exact E.
      * simpl; split; trivial.
        destruct (collapse_ws U false s); trivial.
        intros H; congruence.
Qed.

Lemma strip_shape (s : str) :
  Forall (name_char U) s -> single_spaced U s ->
  Forall (name_char U) (strip U s) /\
  single_spaced U (strip U s) /\
  trimmed U (strip U s).
Proof.
  intros Hchars Hspaced; unfold strip.
  destruct (drop_while_suffix (isspace U) s) as [p Hp].
  set (t := drop_while (isspace U) s) in *.
  destruct (rev_drop_while_prefix (isspace U) t) as [q Hq].
  set (r := rev (drop_while (isspace U) (rev t))) in *.
  assert (Ht : Forall (name_char U) t /\ single_spaced U t).
  { rewrite Hp in Hchars, Hspaced; split.
    - now apply Forall_app in Hchars.
    - now apply single_spaced_app_r in Hspaced. }
  destruct Ht as [Htc Hts]; rewrite Hq in Htc, Hts.
  split; [now apply Forall_app in Htc | split].
  - now apply single_spaced_app_l in Hts.
  - split; intros c u Hr.
    + apply (drop_while_head (isspace U) s c (u ++ q)).
      fold t; rewrite Hq, Hr; reflexivity.
    + apply (drop_while_head (isspace U) (rev t) c (rev u)).
      rewrite <- (rev_involutive (drop_while (isspace U) (rev t))).
      fold r; rewrite Hr, rev_app_distr; reflexivity.
Qed.

(** Whatever the name, [normalize] returns word characters separated by
    single spaces, without white space at either end.  Nothing more holds
    of the characters: the word characters include the underscore and the
    capital letters. *)
Lemma normalize_shape (name : str) :
  Forall (name_char U) (normalize U name) /\
  single_spaced U (normalize U name) /\
  trimmed U (normalize U name).
Proof.
  unfold normalize; destruct (nonempty name).
  - apply strip_shape.
    + apply collapse_ws_chars; unfold drop_non_word.
      apply Forall_forall; intros c Hc; now apply filter_In in Hc.
    + apply collapse_ws_spaced.
  - repeat split; try constructor; intros c t H; try discriminate.
    now destruct t.
Qed.
End Shape.

(** ** When a second pass of [normalize] changes nothing *)

Lemma filter_keeps_all (f : char -> bool) (s : str) :
  Forall (fun c => f c = true) s -> filter f s = s.
Proof.
  induction 1 as [|c s Hc _ IH]; simpl; trivial.
  now rewrite Hc, IH.
Qed.

Lemma drop_while_none (f : char -> bool) (s : str) :
  (forall c t, s = c :: t -> f c = false) -> drop_while f s = s.
Proof.
  destruct s as [|c t]; simpl; trivial.
  intros H; now rewrite (H c t eq_refl).
Qed.

Section SecondPass.
Variable U : UnicodeData.
Hypothesis space_is_space : isspace U SPACE = true.
Hypothesis hyphen_not_alnum : isalnum U HYPHEN = false.

Lemma replace_hyphen_fixed (s : str) :
  Forall (name_char U) s -> replace_hyphen s = s.
Proof.
  unfold replace_hyphen; induction 1 as [|c s Hc _ IH]; simpl; trivial.
  rewrite IH; f_equal.
  destruct (N.eqb_spec c HYPHEN) as [->|]; trivial.
  destruct Hc as [Hc | [_ Hc]]; [discriminate|].
  unfold is_word in Hc; rewrite hyphen_not_alnum in Hc; discriminate.
Qed.

Lemma drop_non_word_fixed (s : str) :
  Forall (name_char U) s -> drop_non_word U s = s.
Proof.
  intros H; apply filter_keeps_all; revert H; apply Forall_impl.
  intros c [-> | [_ Hc]]; [now rewrite space_is_space, orb_true_r|].
  now rewrite Hc.
Qed.

Lemma collapse_ws_fixed (in_run : bool) (s : str) :
  Forall (name_char U) s -> single_spaced U s ->
  (in_run = true -> forall c t, s = c :: t -> isspace U c = false) ->
  collapse_ws U in_run s = s.
Proof.
  intros H; revert in_run; induction H as [|c s Hc _ IH];
    intros in_run Hs Hrun; simpl; trivial.
  destruct Hs as [Hnext Hs].
  destruct (isspace U c) eqn:E.
  - destruct in_run; [now rewrite (Hrun eq_refl c s eq_refl) in E|].
    destruct Hc as [-> | [Hc _]]; [|congruence].
    f_equal; apply IH; trivial.
    intros _ d t ->; now apply Hnext.
  - f_equal; apply IH; trivial; discriminate.
Qed.

Lemma strip_fixed (s : str) : trimmed U s -> strip U s = s.
Proof.
  intros [Hhead Hlast]; unfold strip.
  rewrite (drop_while_none (isspace U) s Hhead).
  rewrite drop_while_none; [apply rev_involutive|].
  intros c t Hr; apply (Hlast c (rev t)).
  rewrite <- (rev_involutive s), Hr; reflexivity.
Qed.

(** A string of the shape of a normalised name which is free of case and
    accents is a fixed point of [normalize]. *)
Lemma normalize_fixed (s : str) :
  Forall (name_char U) s -> single_spaced U s -> trimmed U s ->
  case_and_accent_free U s ->
  normalize U s = s.
Proof.
  intros Hchars Hspaced Htrim (Hlower & Hnfkd & Hcomb).
  unfold normalize; destruct s as [|c s]; trivial.
  cbn [nonempty].
  rewrite Hlower, (replace_hyphen_fixed _ Hchars), Hnfkd.
  unfold drop_combining; rewrite filter_keeps_all.
  - rewrite (drop_non_word_fixed _ Hchars).
    rewrite collapse_ws_fixed; trivial; [now apply strip_fixed | discriminate].
  - revert Hcomb; apply Forall_impl; intros d Hd; now apply N.eqb_eq.
Qed.

(** [normalize] is idempotent on every name whose normal form is free of
    case and accents. *)
Lemma normalize_idempotent_when_free (name : str) :
  case_and_accent_free U (normalize U name) ->
  normalize U (normalize U name) = normalize U name.
Proof.
  intros Hfree; destruct (normalize_shape U name) as (Hc & Hs & Ht).
  now apply normalize_fixed.
Qed.
End SecondPass.

(** ** The end-to-end example *)

(** The local name "mo salah" is none of the keys "mohamed salah" and
    "salah": the exact tier does not fire on the example. *)
Lemma mo_salah_not_exact :
  dict_get (normalize ucd (player_name mo_salah))
           (fpl_lookup ucd [salah_element]) = None /\
  resolve (normalize ucd (player_name mo_salah))
          (fpl_lookup ucd [salah_element]) <> Some (101%Z, Exact).
Proof. split; [reflexivity | vm_compute; discriminate]. Qed.

(** C4, amended. On the example the index holds the keys "mohamed salah"
    and "salah" in that order; "mo salah" is resolved by the containment
    tier on the web-name key "salah", the full-name key not qualifying;
    player "1" gets photo code 101 and the report is matched 1, fuzzy
    matched 0. *)
Theorem mo_salah_end_to_end :
  let lookup := fpl_lookup ucd [salah_element] in
  lookup = [(py "mohamed salah", 101%Z); (py "salah", 101%Z)] /\
  normalize ucd (player_name mo_salah) = py "mo salah" /\
  contains (py "mohamed salah") (py "mo salah") = false /\
  contains (py "salah") (py "mo salah") = true /\
  resolve (normalize ucd (player_name mo_salah)) lookup
    = Some (101%Z, Containment) /\
  reconcile ucd lookup [mo_salah] =
    ([{| player_id := py "1"; player_name := py "Mo Salah";
         photoCode := Some 101%Z |}],
     {| matches := 1; fuzzy_matches := 0 |}).
Proof. repeat split; vm_compute; reflexivity. Qed.

(** ** The normaliser on explicit inputs *)

(** C5. The underscore is a word character of [re], so [normalize] keeps
    it: "a_b" comes back unchanged.  A capital letter produced by the
    compatibility decomposition is kept as well, the string being
    lowercased before it is decomposed: U+210B gives "H". *)
Theorem normalize_keeps_underscore :
  normalize ucd (py "a_b") = py "a_b" /\
  In UNDERSCORE (normalize ucd (py "a_b")) /\
  normalize ucd [0x210B%N] = py "H".
Proof.
  repeat split; try reflexivity.
  vm_compute; tauto.
Qed.

(** C6. [normalize] is not idempotent on U+210B SCRIPT CAPITAL H: the
    first pass yields "H", the second "h". *)
Theorem normalize_not_idempotent :
  normalize ucd [0x210B%N] = py "H" /\
  normalize ucd (normalize ucd [0x210B%N]) = py "h" /\
  normalize ucd (normalize ucd [0x210B%N]) <> normalize ucd [0x210B%N].
Proof.
  repeat split; try reflexivity.
  vm_compute; discriminate.
Qed.

(** ** Propagation *)

(** A [basePlayerId] that is present and empty is passed over by [or]:
    the record is joined by its own id and synced, where joining by the
    [basePlayerId] would look up the empty string and find nothing. *)
Lemma empty_basePlayerId_joins_by_id :
  basePlayerId empty_base = Some [] /\
  base_id empty_base = py "1" /\
  base_id empty_base <> split_head [] /\
  dict_get (split_head []) (core_map [local_1]) = None /\
  propagate [empty_base] [local_1]
  = ([{| ui_id := Some (py "1"); basePlayerId := Some [];
         ui_photoCode := Some 101%Z |}], 1%Z).
Proof.
  repeat split; try reflexivity.
  vm_compute; discriminate.
Qed.

Lemma split_head_no_hyphen (x : str) :
  ~ In HYPHEN x -> split_head x = x.
Proof.
  unfold split_head; induction x as [|c x IH]; simpl; trivial.
  intros H; destruct (N.eqb_spec c HYPHEN) as [->|Hc]; simpl.
  - exfalso; apply H; now left.
  - rewrite IH; trivial; intros Hin; apply H; now right.
Qed.

Lemma split_head_hyphen (x y : str) :
  ~ In HYPHEN x -> split_head (x ++ HYPHEN :: y) = x.
Proof.
  unfold split_head; induction x as [|c x IH]; simpl; trivial.
  intros H; destruct (N.eqb_spec c HYPHEN) as [->|Hc]; simpl.
  - exfalso; apply H; now left.
  - rewrite IH; trivial; intros Hin; apply H; now right.
Qed.

(** C8, amended. A derived record is joined by its [basePlayerId] when
    that is present and not empty, else by its own id when that is present
    and not empty, else by the empty string, the key being cut at the
    first '-'.  A record whose key is in the map from local id to photo
    code gets that code as its [photoCode], keeps its [id] and
    [basePlayerId], and is counted as synced; so does the derived player
    "1-variantA" of the example, whose [photoCode] becomes 101. *)
Theorem propagation_join_key :
  forall (p : ui_player),
    (forall b, basePlayerId p = Some b -> b <> [] -> base_id p = split_head b) /\
    (forall i, basePlayerId p = None \/ basePlayerId p = Some [] ->
               ui_id p = Some i -> i <> [] -> base_id p = split_head i) /\
    (basePlayerId p = None \/ basePlayerId p = Some [] ->
     ui_id p = None \/ ui_id p = Some [] -> base_id p = []) /\
    (forall x y, ~ In HYPHEN x ->
                 split_head x = x /\ split_head (x ++ HYPHEN :: y) = x) /\
    (forall (local_players : list player) (synced c : Z),
        dict_get (base_id p) (core_map local_players) = Some c ->
        sync_player (core_map local_players) p synced
        = ({| ui_id := ui_id p; basePlayerId := basePlayerId p;
              ui_photoCode := Some c |}, (synced + 1)%Z)) /\
    propagate [variant_A] [local_1]
    = ([{| ui_id := None; basePlayerId := Some (py "1-variantA");
           ui_photoCode := Some 101%Z |}], 1%Z).
Proof.
  intros p; repeat split.
  - intros b Hb Hne; unfold base_id; rewrite Hb.
    destruct b; [contradiction | reflexivity].
  - intros i Hb Hi Hne; unfold base_id; rewrite Hi.
    destruct Hb as [-> | ->]; (destruct i; [contradiction | reflexivity]).
  - intros Hb Hi; unfold base_id.
    destruct Hb as [-> | ->], Hi as [-> | ->]; reflexivity.
  - now apply split_head_no_hyphen.
  - now apply split_head_hyphen.
  - intros local_players synced c Hc; unfold sync_player; now rewrite Hc.
Qed.

(** ** The theorems on explicit inputs *)

(** "sonny" is stored with 2: the exact tier answers 2, although the
    earlier key "son", stored with 1, is contained in it. *)
Lemma exact_tier_precedence_witness :
  NoDup (keys sonny_lookup) /\
  In (py "sonny", 2%Z) sonny_lookup /\
  resolve (py "sonny") sonny_lookup = Some (2%Z, Exact) /\
  forall (p : player) (n : counters),
    normalize ucd (player_name p) = py "sonny" ->
    reconcile_player ucd sonny_lookup p n =
    ({| player_id := player_id p; player_name := player_name p;
        photoCode := Some 2%Z |},
     {| matches := matches n + 1; fuzzy_matches := fuzzy_matches n |}).
Proof.
  assert (Hnd : NoDup (keys sonny_lookup)).
  { constructor; [|constructor; [intros [] | constructor]].
    intros [H|[]]; vm_compute in H; discriminate. }
  assert (Hin : In (py "sonny", 2%Z) sonny_lookup)
    by (right; left; reflexivity).
  split; [exact Hnd | split; [exact Hin|]].
  exact (exact_tier_precedence ucd sonny_lookup (py "sonny") 2%Z Hnd Hin).
Defined.

(** "sonny" is not a key; "salah" does not qualify, "son" and "sonny boy"
    both do, and the earlier "son" wins. *)
Lemma containment_first_match_witness :
  containment (py "sonny") sonny_boy_lookup = Some 1%Z /\
  resolve (py "sonny") sonny_boy_lookup = Some (1%Z, Containment).
Proof.
  apply (containment_first_match sonny_boy_lookup
           [(py "salah", 9%Z)] [(py "sonny boy", 2%Z)] (py "sonny") (py "son") 1%Z).
  - reflexivity.
  - vm_compute; intros [H|[H|[H|[]]]]; discriminate.
  - intros k' c' [H|[]] [_ [Hs|Hs]]; injection H as <- <-;
      apply str_in_spec in Hs; vm_compute in Hs; discriminate.
  - vm_compute; discriminate.
  - left; apply str_in_spec; reflexivity.
Defined.


(** The name "?!" normalises to the empty string and takes the code 9 of
    "salah", the first of the three keys, and not a code of the keys
    after it. *)
Lemma empty_name_takes_first_key_witness :
  normalize ucd (player_name punctuation_only) = [] /\
  resolve (normalize ucd (player_name punctuation_only)) sonny_boy_lookup
  = Some (9%Z, Containment) /\
  reconcile_player ucd sonny_boy_lookup punctuation_only
                   {| matches := 0; fuzzy_matches := 0 |}
  = ({| player_id := py "7"; player_name := py "?!"; photoCode := Some 9%Z |},
     {| matches := 0 + 1; fuzzy_matches := 0 |}).
Proof.
  split; [reflexivity|].
  apply (empty_name_takes_first_key ucd sonny_boy_lookup []
           [(py "son", 1%Z); (py "sonny boy", 2%Z)]
           (py "salah") 9%Z punctuation_only
           {| matches := 0; fuzzy_matches := 0 |}).
  - reflexivity.
  - vm_compute; intros [H|[H|[H|[]]]]; discriminate.
  - reflexivity.
  - intros k' c' [].
  - vm_compute; discriminate.
Defined.

(** ** Further evaluations *)

Example normalize_mo_salah : normalize ucd (py "Mo Salah") = py "mo salah".
Proof. reflexivity. Qed.

Example normalize_hyphen :
  normalize ucd (py "Smith-Jones") = normalize ucd (py "smith jones").
Proof. reflexivity. Qed.

(** "José Núñez" and "Jose Nunez" *)
Example normalize_accents :
  normalize ucd [0x4A; 0x6F; 0x73; 0xE9; 0x20; 0x4E; 0xFA; 0xF1; 0x65; 0x7A]%N
  = normalize ucd (py "Jose Nunez").
Proof. reflexivity. Qed.

Example ratio_salah :
  Difflib.ratio (py "mo salah") (py "mohamed salah") = (16 # 21)%Q.
Proof. vm_compute; reflexivity. Qed.

(** A best score of 0.8 stays under the threshold: no code is returned. *)
Example fuzzy_below_threshold :
  best_fuzzy_match (py "salha") [(py "salah", 7%Z)] MIN_SCORE
  = (None, (8 # 10)%Q).
Proof. vm_compute; reflexivity. Qed.

(** A later record overwrites the code of a key it shares with an earlier
    one, and the key keeps its place. *)
Example fpl_lookup_last_writer :
  fpl_lookup ucd
    [{| code := 1; first_name := py "Ann"; second_name := py "Lee";
        web_name := py "Lee" |};
     {| code := 2; first_name := py "Bob"; second_name := py "Lee";
        web_name := py "B.Lee" |}]
  = [(py "ann lee", 1%Z); (py "lee", 2%Z); (py "bob lee", 2%Z);
     (py "blee", 2%Z)].
Proof. vm_compute; reflexivity. Qed.

(** * Further properties of the script *)

(** ** Assignments to a dictionary *)

Lemma dict_get_set_same {V} (k : str) (v : V) (d : dict V) :
  dict_get k (dict_set k v d) = Some v.
Proof.
  induction d as [|[k' v'] d IH]; simpl.
  - now rewrite str_eqb_refl.
  - destruct (str_eqb k k') eqn:E; simpl; now rewrite E.
Qed.

Lemma dict_get_set_other {V} (k k' : str) (v : V) (d : dict V) :
  k' <> k -> dict_get k' (dict_set k v d) = dict_get k' d.
Proof.
  intros Hne; induction d as [|[k0 v0] d IH]; simpl.
  - destruct (str_eqb k' k) eqn:E; trivial.
    apply str_eqb_eq in E; contradiction.
  - destruct (str_eqb k k0) eqn:E; simpl.
    + apply str_eqb_eq in E; subst k0.
      destruct (str_eqb k' k) eqn:E'; trivial.
      apply str_eqb_eq in E'; contradiction.
    + now rewrite IH.
Qed.

(** An assignment changes the keys only by appending a new one. *)
Lemma keys_dict_set {V} (k : str) (v : V) (d : dict V) :
  keys (dict_set k v d) = keys d ++ (if dict_mem k d then [] else [k]).
Proof.
  unfold dict_mem; induction d as [|[k' v'] d IH]; simpl; trivial.
  destruct (str_eqb k k') eqn:E; simpl.
  - now rewrite app_nil_r.
  - now rewrite IH.
Qed.

Lemma dict_mem_in {V} (k : str) (d : dict V) :
  dict_mem k d = true <-> In k (keys d).
Proof.
  unfold dict_mem; rewrite dict_get_in.
  destruct (dict_get k d) as [v|]; split; trivial; try discriminate.
  - intros _; now exists v.
  - intros [v Hv]; discriminate.
Qed.

Lemma NoDup_keys_dict_set {V} (k : str) (v : V) (d : dict V) :
  NoDup (keys d) -> NoDup (keys (dict_set k v d)).
Proof.
  intros H; rewrite keys_dict_set.
  destruct (dict_mem k d) eqn:E; [now rewrite app_nil_r|].
  apply NoDup_app; repeat split; trivial.
  - constructor; [intros [] | constructor].
  - intros x Hx [<- | []].
    apply dict_mem_in in Hx; congruence.
Qed.

Lemma in_dict_set {V} (k k' : str) (v v' : V) (d : dict V) :
  In (k', v') (dict_set k v d) -> (k' = k /\ v' = v) \/ In (k', v') d.
Proof.
  induction d as [|[k0 v0] d IH]; simpl.
  - intros [H | []]; injection H as <- <-; now left.
  - destruct (str_eqb k k0) eqn:E; simpl.
    + apply str_eqb_eq in E; subst k0.
      intros [H | H]; [injection H as <- <-; now left | now right; right].
    + intros [H | H]; [now right; left|].
      destruct (IH H) as [?|?]; [now left | now right; right].
Qed.

Lemma dict_get_some_in {V} (k : str) (v : V) (d : dict V) :
  dict_get k d = Some v -> In (k, v) d.
Proof.
  induction d as [|[k' v'] d IH]; simpl; [discriminate|].
  destruct (str_eqb k k') eqn:E.
  - apply str_eqb_eq in E; subst k'; intros H; injection H as ->; now left.
  - intros H; right; now apply IH.
Qed.

Lemma dict_get_set {V} (k k' : str) (v : V) (d : dict V) :
  dict_get k' (dict_set k v d) = if str_eqb k' k then Some v else dict_get k' d.
Proof.
  destruct (str_eqb k' k) eqn:E.
  - apply str_eqb_eq in E; subst k'; apply dict_get_set_same.
  - apply dict_get_set_other; intros ->; now rewrite str_eqb_refl in E.
Qed.

Lemma length_dict_set {V} (k : str) (v : V) (d : dict V) :
  (List.length (dict_set k v d) <= S (List.length d))%nat.
Proof.
  induction d as [|[k' v'] d IH]; simpl; [lia|].
  destruct (str_eqb k k'); simpl; lia.
Qed.

(** ** The lookup index *)

Section Index.
Variable U : UnicodeData.

Lemma add_element_get (d : dict Z) (p : element) (k : str) :
  dict_get k (add_element U d p) =
  if existsb (str_eqb k) (element_keys U p) then Some (code p)
  else dict_get k d.
Proof.
  unfold add_element, element_keys; cbn [existsb].
  rewrite !dict_get_set, orb_false_r.
  destruct (str_eqb k (normalize U (second_name p))); simpl;
    [now rewrite !orb_true_r|].
  rewrite orb_false_r.
  destruct (str_eqb k (normalize U (web_name p))); simpl;
    [now rewrite orb_true_r|].
  now rewrite orb_false_r.
Qed.

Lemma existsb_str_eqb (k : str) (l : list str) :
  existsb (str_eqb k) l = true <-> In k l.
Proof.
  rewrite existsb_exists; split.
  - intros [x [Hx E]]; apply str_eqb_eq in E; now subst.
  - intros H; exists k; split; [trivial | apply str_eqb_refl].
Qed.

Lemma add_element_get_own (d : dict Z) (p : element) (k : str) :
  In k (element_keys U p) -> dict_get k (add_element U d p) = Some (code p).
Proof.
  intros H; rewrite add_element_get.
  apply existsb_str_eqb in H; now rewrite H.
Qed.

Lemma add_element_get_other (d : dict Z) (q : element) (k : str) :
  ~ In k (element_keys U q) -> dict_get k (add_element U d q) = dict_get k d.
Proof.
  intros H; rewrite add_element_get.
  destruct (existsb (str_eqb k) (element_keys U q)) eqn:E; trivial.
  apply existsb_str_eqb in E; contradiction.
Qed.

Lemma fold_add_element_get_other (post : list element) (d : dict Z) (k : str) :
  (forall q, In q post -> ~ In k (element_keys U q)) ->
  dict_get k (fold_left (add_element U) post d) = dict_get k d.
Proof.
  revert d; induction post as [|q post IH]; intros d H; simpl; trivial.
  rewrite IH by (intros q' Hq'; apply H; now right).
  apply add_element_get_other, H; now left.
Qed.

Lemma add_element_keys (d : dict Z) (p : element) :
  exists suffix, keys (add_element U d p) = keys d ++ suffix.
Proof.
  unfold add_element; rewrite !keys_dict_set, <- !app_assoc; eauto.
Qed.

Lemma fold_add_element_keys (l : list element) (d : dict Z) :
  exists suffix, keys (fold_left (add_element U) l d) = keys d ++ suffix.
Proof.
  revert d; induction l as [|p l IH]; intros d; simpl.
  - exists []; now rewrite app_nil_r.
  - destruct (IH (add_element U d p)) as [s1 H1].
    destruct (add_element_keys d p) as [s0 H0].
    exists (s0 ++ s1); now rewrite H1, H0, app_assoc.
Qed.

Lemma add_element_entries (d : dict Z) (p : element) :
  (NoDup (keys d) -> NoDup (keys (add_element U d p))) /\
  (forall k c, In (k, c) (add_element U d p) ->
     In (k, c) d \/ (In k (element_keys U p) /\ c = code p)) /\
  (List.length (add_element U d p) <= 3 + List.length d)%nat.
Proof.
  unfold add_element, element_keys; repeat split.
  - intros H; now repeat apply NoDup_keys_dict_set.
  - intros k c H.
    apply in_dict_set in H as [[-> ->] | H]; [right; simpl; tauto|].
    apply in_dict_set in H as [[-> ->] | H]; [right; simpl; tauto|].
    apply in_dict_set in H as [[-> ->] | H]; [right; simpl; tauto|].
    now left.
  - set (d1 := dict_set (normalize U (first_name p ++ [SPACE] ++ second_name p))
                        (code p) d).
    set (d2 := dict_set (normalize U (web_name p)) (code p) d1).
    pose proof (length_dict_set (normalize U (second_name p)) (code p) d2).
    pose proof (length_dict_set (normalize U (web_name p)) (code p) d1).
    pose proof (length_dict_set
                  (normalize U (first_name p ++ [SPACE] ++ second_name p))
                  (code p) d).
    fold d1 in H1; fold d2 in H0; lia.
Qed.

Lemma fold_add_element_entries (l : list element) (d : dict Z) :
  (NoDup (keys d) -> NoDup (keys (fold_left (add_element U) l d))) /\
  (forall k c, In (k, c) (fold_left (add_element U) l d) ->
     In (k, c) d \/ exists p, In p l /\ In k (element_keys U p) /\ c = code p) /\
  (List.length (fold_left (add_element U) l d)
   <= 3 * List.length l + List.length d)%nat.
Proof.
  revert d; induction l as [|p l IH]; intros d; simpl.
  - repeat split; auto.
  - destruct (IH (add_element U d p)) as (Hn & He & Hl).
    destruct (add_element_entries d p) as (Hn0 & He0 & Hl0).
    repeat split; [auto | | lia].
    intros k c H; destruct (He k c H) as [H0 | (q & Hq & Hk & Hc)].
    + destruct (He0 k c H0) as [?|[? ?]]; [now left|].
      right; exists p; auto.
    + right; exists q; auto.
Qed.
End Index.

(** X1. Last writer wins: a key of the index maps to the code of the last
    element that has it among its three keys. *)
Theorem fpl_lookup_last_writer_wins :
  forall (U : UnicodeData) (pre post : list element) (p : element) (k : str),
    In k (element_keys U p) ->
    (forall q, In q post -> ~ In k (element_keys U q)) ->
    dict_get k (fpl_lookup U (pre ++ p :: post)) = Some (code p).
Proof.
  intros U pre post p k Hk Hpost; unfold fpl_lookup.
  rewrite fold_left_app; cbn [fold_left].
  rewrite fold_add_element_get_other by trivial.
  now apply add_element_get_own.
Qed.

(** X2. The index has no duplicate key, holds at most three entries per
    element, and each entry is a key of some element with that element's
    code; conversely every key of every element is in the index. *)
Theorem fpl_lookup_entries :
  forall (U : UnicodeData) (fpl_elements : list element),
    NoDup (keys (fpl_lookup U fpl_elements)) /\
    (List.length (fpl_lookup U fpl_elements)
     <= 3 * List.length fpl_elements)%nat /\
    (forall k c, In (k, c) (fpl_lookup U fpl_elements) ->
       exists p, In p fpl_elements /\ In k (element_keys U p) /\ c = code p) /\
    (forall p k, In p fpl_elements -> In k (element_keys U p) ->
       In k (keys (fpl_lookup U fpl_elements))).
Proof.
  intros U l; unfold fpl_lookup.
  destruct (fold_add_element_entries U l []) as (Hn & He & Hl).
  repeat split.
  - apply Hn; constructor.
  - simpl in Hl; lia.
  - intros k c H; destruct (He k c H) as [[] | ?]; trivial.
  - intros p k Hp Hk.
    apply in_split in Hp as (l1 & l2 & ->).
    rewrite fold_left_app; cbn [fold_left].
    destruct (fold_add_element_keys U l2
                (add_element U (fold_left (add_element U) l1 []) p)) as [s ->].
    apply in_or_app; left.
    apply dict_get_in; eexists; now apply add_element_get_own.
Qed.

(** X3. Elements added later never move or remove the keys of the earlier
    ones: the keys of the index of a list are a prefix of the keys of the
    index of any extension of it. *)
Theorem fpl_lookup_order_stable :
  forall (U : UnicodeData) (l l' : list element),
    exists suffix,
      keys (fpl_lookup U (l ++ l')) = keys (fpl_lookup U l) ++ suffix.
Proof.
  intros U l l'; unfold fpl_lookup; rewrite fold_left_app.
  apply fold_add_element_keys.
Qed.

Lemma fpl_lookup_last_writer_wins_witness :
  In (py "lee") (element_keys ucd bob_lee) /\
  dict_get (py "lee") (fpl_lookup ucd ([ann_lee] ++ bob_lee :: []))
  = Some (code bob_lee).
Proof.
  assert (H : In (py "lee") (element_keys ucd bob_lee))
    by (right; right; left; reflexivity).
  split; [exact H|].
  apply (fpl_lookup_last_writer_wins ucd [ann_lee] [] bob_lee (py "lee") H).
  intros q [].
Defined.

(** ** What [best_fuzzy_match] returns *)

Lemma similarity_pos_nonempty (a b : str) :
  (0 < similarity a b)%Q -> a <> [] /\ b <> [].
Proof.
  unfold similarity; destruct a, b; simpl; intros H;
    try (exfalso; revert H; apply Qlt_irrefl); split; discriminate.
Qed.

Section FuzzyLoop.
Variable local_name : str.

(** The state of the loop after the candidates [l]: the score has not gone
    down, it bounds every candidate seen, and the code is the one of a
    candidate that scores exactly it, unless nothing was taken. *)
Lemma fuzzy_loop_inv (l : dict Z) (bc : option Z) (bs : Q) :
  let r := fold_left (fuzzy_step local_name) l (bc, bs) in
  (bs <= snd r)%Q /\
  (forall k c, In (k, c) l -> (similarity local_name k <= snd r)%Q) /\
  (r = (bc, bs) \/
   exists k c, In (k, c) l /\ fst r = Some c /\
               snd r = similarity local_name k /\ (bs < snd r)%Q).
Proof.
  revert bc bs; induction l as [|[k c] l IH]; intros bc bs; cbn [fold_left].
  - simpl; split; [apply Qle_refl | split; [intros ? ? [] | now left]].
  - destruct (Qltb bs (similarity local_name k)) eqn:E.
    + apply Qltb_lt in E; rewrite fuzzy_step_take by trivial.
      destruct (IH (Some c) (similarity local_name k)) as (Hle & Hall & Hcode).
      cbv zeta in *; split; [|split].
      * apply Qle_trans with (similarity local_name k); trivial.
        now apply Qlt_le_weak.
      * intros k' c' [H | H]; [injection H as <- <-; trivial | eauto].
      * right; destruct Hcode as [-> | (k' & c' & Hin & Hf & Hs & Hlt)].
        -- exists k, c; split; [now left | auto].
        -- exists k', c'; split; [now right | split; [trivial | split; trivial]].
           now apply Qlt_trans with (similarity local_name k).
    + apply Qltb_ge in E; rewrite fuzzy_step_keep by trivial.
      destruct (IH bc bs) as (Hle & Hall & Hcode).
      cbv zeta in *; split; [trivial | split].
      * intros k' c' [H | H]; [injection H as <- <- | eauto].
        now apply Qle_trans with bs.
      * destruct Hcode as [-> | (k' & c' & Hin & Hf & Hs & Hlt)];
          [now left | right].
        exists k', c'; split; [now right | auto].
Qed.
End FuzzyLoop.

Lemma best_fuzzy_match_unfold (local_name : str) (candidates : dict Z)
      (min_score : Q) :
  best_fuzzy_match local_name candidates min_score =
  let r := fold_left (fuzzy_step local_name) candidates (None, 0%Q) in
  (if Qle_bool min_score (snd r) then fst r else None, snd r).
Proof.
  unfold best_fuzzy_match.
  destruct (fold_left (fuzzy_step local_name) candidates (None, 0%Q)) as [bc bs].
  simpl; now destruct (Qle_bool min_score bs).
Qed.

Lemma best_fuzzy_match_code (local_name : str) (candidates : dict Z)
      (min_score : Q) (c : Z) (s : Q) :
  best_fuzzy_match local_name candidates min_score = (Some c, s) ->
  exists k,
    In (k, c) candidates /\ similarity local_name k = s /\
    (min_score <= s)%Q /\ (0 < s)%Q /\ local_name <> [] /\ k <> [].
Proof.
  intros H.
  rewrite best_fuzzy_match_unfold in H; cbv zeta in H.
  destruct (fuzzy_loop_inv local_name candidates None 0%Q) as (_ & _ & Hcode).
  cbv zeta in Hcode.
  destruct (fold_left (fuzzy_step local_name) candidates (None, 0%Q))
    as [bc bs]; simpl in *.
  destruct (Qle_bool min_score bs) eqn:E; [|discriminate].
  injection H as -> ->.
  destruct Hcode as [Hcode | (k & c' & Hin & Hf & Hs & Hlt)]; [discriminate|].
  injection Hf as ->; exists k; subst s.
  apply Qle_bool_iff in E.
  destruct (similarity_pos_nonempty local_name k Hlt).
  repeat split; trivial.
Qed.

(** X4. A code returned by [best_fuzzy_match] is the code of a candidate
    whose similarity to the local name is the returned score; that score
    reaches the threshold and is positive, so neither the local name nor
    the candidate key is empty. *)
Theorem best_fuzzy_match_sound :
  forall (local_name : str) (candidates : dict Z) (min_score : Q)
         (c : Z) (s : Q),
    best_fuzzy_match local_name candidates min_score = (Some c, s) ->
    exists k,
      In (k, c) candidates /\ similarity local_name k = s /\
      (min_score <= s)%Q /\ (0 < s)%Q /\ local_name <> [] /\ k <> [].
Proof.
  intros local_name candidates min_score c s.
  apply best_fuzzy_match_code.
Qed.

(** X5. The score that [best_fuzzy_match] reports does not depend on the
    threshold: it is 0 or the similarity of some candidate, and no
    candidate is more similar to the local name. *)
Theorem best_fuzzy_match_score_is_max :
  forall (local_name : str) (candidates : dict Z) (min_score : Q),
    let s := snd (best_fuzzy_match local_name candidates min_score) in
    (forall k c, In (k, c) candidates -> (similarity local_name k <= s)%Q) /\
    (s = 0%Q \/ exists k c, In (k, c) candidates /\ s = similarity local_name k).
Proof.
  intros local_name candidates min_score s; subst s.
  rewrite best_fuzzy_match_unfold; cbv zeta; cbn [snd].
  destruct (fuzzy_loop_inv local_name candidates None 0%Q) as (_ & Hall & Hcode).
  cbv zeta in *; split; trivial.
  destruct Hcode as [-> | (k & c & Hin & _ & Hs & _)]; [now left | right].
  now exists k, c.
Qed.

Lemma best_fuzzy_match_finds (local_name : str) (candidates : dict Z)
      (min_score : Q) (k : str) (c : Z) :
  In (k, c) candidates ->
  (min_score <= similarity local_name k)%Q ->
  (0 < similarity local_name k)%Q ->
  exists c', fst (best_fuzzy_match local_name candidates min_score) = Some c'.
Proof.
  intros Hin Hmin Hpos.
  rewrite best_fuzzy_match_unfold; cbv zeta; cbn [fst].
  destruct (fuzzy_loop_inv local_name candidates None 0%Q) as (_ & Hall & Hcode).
  cbv zeta in *.
  specialize (Hall k c Hin).
  assert (E : Qle_bool min_score
                (snd (fold_left (fuzzy_step local_name) candidates (None, 0%Q)))
              = true)
    by (apply Qle_bool_iff; now apply Qle_trans with (similarity local_name k)).
  rewrite E.
  destruct Hcode as [Hr | (k' & c' & _ & Hf & _)]; [|now exists c'].
  rewrite Hr in Hall; simpl in Hall.
  exfalso; now apply (Qlt_not_le _ _ Hpos).
Qed.

(** X6. If some candidate has a positive similarity that reaches the
    threshold, [best_fuzzy_match] returns a code. *)
Theorem best_fuzzy_match_complete :
  forall (local_name : str) (candidates : dict Z) (min_score : Q)
         (k : str) (c : Z),
    In (k, c) candidates ->
    (min_score <= similarity local_name k)%Q ->
    (0 < similarity local_name k)%Q ->
    exists c', fst (best_fuzzy_match local_name candidates min_score) = Some c'.
Proof.
  intros local_name candidates min_score k c.
  apply best_fuzzy_match_finds.
Qed.

Lemma best_fuzzy_match_nothing_to_match_aux (local_name : str)
      (candidates : dict Z) (min_score : Q) :
  best_fuzzy_match [] candidates min_score = (None, 0%Q) /\
  best_fuzzy_match local_name [] min_score = (None, 0%Q).
Proof.
  split; unfold best_fuzzy_match.
  - rewrite fuzzy_loop_keep.
    + now destruct (Qle_bool min_score 0).
    + intros k c _; apply Qle_refl.
  - simpl; now destruct (Qle_bool min_score 0).
Qed.

(** X7. Without a local name or without candidates nothing is matched,
    whatever the threshold, a non-positive one included: the result is
    [(None, 0.0)]. *)
Theorem best_fuzzy_match_nothing_to_match :
  forall (local_name : str) (candidates : dict Z) (min_score : Q),
    best_fuzzy_match [] candidates min_score = (None, 0%Q) /\
    best_fuzzy_match local_name [] min_score = (None, 0%Q).
Proof.
  intros local_name candidates min_score.
  apply best_fuzzy_match_nothing_to_match_aux.
Qed.

Lemma best_fuzzy_match_sound_witness :
  best_fuzzy_match (py "mohammed salah") [(py "mohamed salah", 101%Z)] MIN_SCORE
  = (Some 101%Z, (26 # 27)%Q) /\
  exists k,
    In (k, 101%Z) [(py "mohamed salah", 101%Z)] /\
    similarity (py "mohammed salah") k = (26 # 27)%Q /\
    (MIN_SCORE <= 26 # 27)%Q /\ (0 < 26 # 27)%Q /\
    py "mohammed salah" <> [] /\ k <> [].
Proof.
  assert (H : best_fuzzy_match (py "mohammed salah")
                [(py "mohamed salah", 101%Z)] MIN_SCORE
              = (Some 101%Z, (26 # 27)%Q)) by (vm_compute; reflexivity).
  split; [exact H|].
  exact (best_fuzzy_match_sound (py "mohammed salah")
           [(py "mohamed salah", 101%Z)] MIN_SCORE 101%Z (26 # 27)%Q H).
Defined.

Lemma best_fuzzy_match_complete_witness :
  In (py "mohamed salah", 101%Z) [(py "salah", 7%Z); (py "mohamed salah", 101%Z)] /\
  exists c',
    fst (best_fuzzy_match (py "mohammed salah")
           [(py "salah", 7%Z); (py "mohamed salah", 101%Z)] MIN_SCORE) = Some c'.
Proof.
  assert (H : In (py "mohamed salah", 101%Z)
                 [(py "salah", 7%Z); (py "mohamed salah", 101%Z)])
    by (right; left; reflexivity).
  split; [exact H|].
  apply (best_fuzzy_match_complete (py "mohammed salah")
           [(py "salah", 7%Z); (py "mohamed salah", 101%Z)] MIN_SCORE
           (py "mohamed salah") 101%Z H).
  - vm_compute; discriminate.
  - vm_compute; reflexivity.
Defined.

(** ** The range of the similarity *)

Section DifflibRange.
Variable pop : char -> bool.

Lemma j2len_row_le (j : nat) (ai : char) (b : str) (prev : list nat) :
  row_le j prev -> row_le (S j) (Difflib.j2len_row pop ai b prev).
Proof.
  revert j prev; induction b as [|bj b IH]; intros j prev Hprev; simpl; trivial.
  split.
  - destruct ((ai =? bj)%N && negb (pop bj)); [|lia].
    destruct prev; simpl in *; lia.
  - apply IH; destruct prev; simpl in *; tauto.
Qed.

Lemma j2len_row_length (ai : char) (b : str) (prev : list nat) :
  List.length (Difflib.j2len_row pop ai b prev) = List.length b.
Proof.
  revert prev; induction b as [|bj b IH]; intros prev; simpl; trivial.
  now rewrite IH.
Qed.

Lemma scan_row_bound_b (i j n : nat) (row : list nat)
      (best : nat * nat * nat) :
  row_le (S j) row -> (j + List.length row = n)%nat ->
  (block_end_b best <= n)%nat ->
  (block_end_b (Difflib.scan_row i j row best) <= n)%nat.
Proof.
  revert j best; induction row as [|k row IH]; intros j [[bi bj] bs] Hrow Hn Hb;
    simpl; trivial.
  destruct Hrow as [Hk Hrow]; simpl in Hn.
  apply IH; trivial; [lia|].
  destruct (bs <? k)%nat; trivial.
  unfold block_end_b; simpl; lia.
Qed.

Lemma scan_rows_bound_b (i : nat) (a b : str) (prev : list nat)
      (best : nat * nat * nat) :
  row_le 1 prev ->
  (block_end_b best <= List.length b)%nat ->
  (block_end_b (Difflib.scan_rows pop i a b prev best) <= List.length b)%nat.
Proof.
  revert i prev best; induction a as [|ai a IH]; intros i prev best Hprev Hb;
    simpl; trivial.
  assert (Hrow : row_le 1 (Difflib.j2len_row pop ai b (0%nat :: prev)))
    by (apply j2len_row_le; simpl; split; [lia | trivial]).
  apply IH; trivial.
  apply scan_row_bound_b; trivial.
  now rewrite j2len_row_length.
Qed.

Lemma common_prefix_le_r (x y : str) :
  (Difflib.common_prefix x y <= List.length y)%nat.
Proof.
  revert y; induction x as [|cx x IH]; intros [|cy y]; simpl; try lia.
  destruct (cx =? cy)%N; [specialize (IH y) |]; lia.
Qed.

Lemma find_longest_match_bound_b (a b : str) :
  (block_end_b (Difflib.find_longest_match pop a b) <= List.length b)%nat.
Proof.
  unfold Difflib.find_longest_match.
  pose proof (scan_rows_bound_b 0 a b [] (0, 0, 0)%nat I) as H.
  destruct (Difflib.scan_rows pop 0 a b [] (0, 0, 0)%nat) as [[bi bj] bs].
  unfold block_end_b in *; simpl in *.
  specialize (H (Nat.le_0_l _)).
  pose proof (common_prefix_le_r (rev (firstn bi a)) (rev (firstn bj b)))
    as Hback.
  rewrite length_rev, length_firstn in Hback.
  set (back := Difflib.common_prefix (rev (firstn bi a)) (rev (firstn bj b)))
    in *.
  pose proof (common_prefix_le_r (skipn (bi - back + (bs + back)) a)
                                 (skipn (bj - back + (bs + back)) b)) as Hfwd.
  rewrite length_skipn in Hfwd.
  lia.
Qed.

(** The blocks are disjoint in [a] and in [b]: they cannot cover more
    than either string. *)
Lemma matches_le (fuel : nat) (a b : str) :
  (Difflib.matches pop fuel a b <= List.length a)%nat /\
  (Difflib.matches pop fuel a b <= List.length b)%nat.
Proof.
  revert a b; induction fuel as [|fuel IH]; intros a b; simpl; [lia|].
  pose proof (find_longest_match_bound pop a b) as Ha.
  pose proof (find_longest_match_bound_b a b) as Hb.
  destruct (Difflib.find_longest_match pop a b) as [[i j] k].
  unfold block_end, block_end_b in *; simpl in *.
  destruct (k =? 0)%nat; [lia|].
  destruct (IH (firstn i a) (firstn j b)) as [Hla Hlb].
  destruct (IH (skipn (i + k) a) (skipn (j + k) b)) as [Hra Hrb].
  rewrite length_firstn in Hla, Hlb; rewrite length_skipn in Hra, Hrb.
  destruct ((0 <? i)%nat && (0 <? j)%nat);
    destruct ((i + k <? List.length a)%nat && (j + k <? List.length b)%nat);
    lia.
Qed.
End DifflibRange.

(** X8. A similarity is a number between 0 and 1: the matching blocks
    cover at most each of the two strings, so twice their size is at most
    the two lengths together. *)
Theorem similarity_range :
  forall (a b : str), (0 <= similarity a b)%Q /\ (similarity a b <= 1)%Q.
Proof.
  intros a b; unfold similarity.
  destruct (nonempty a && nonempty b); [|split; discriminate].
  unfold Difflib.ratio.
  destruct (List.length a + List.length b)%nat as [|n] eqn:En;
    [split; discriminate|].
  destruct (matches_le (Difflib.popular b) (S (List.length a)) a b) as [Ha Hb].
  set (m := Difflib.matches (Difflib.popular b) (S (List.length a)) a b) in *.
  assert (Hpos : Z.pos (Pos.of_nat (S n)) = Z.of_nat (S n))
    by (rewrite <- positive_nat_Z, Nat2Pos.id; [reflexivity | discriminate]).
  unfold Qle; cbn [Qnum Qden]; rewrite Hpos; split; lia.
Qed.

(** ** What the three tiers return *)

Lemma containment_some (local_name : str) (lookup : dict Z) (c : Z) :
  containment local_name lookup = Some c ->
  exists k, In (k, c) lookup /\ contains k local_name = true.
Proof.
  induction lookup as [|[k c'] lookup IH]; simpl; [discriminate|].
  destruct (contains k local_name) eqn:E.
  - intros H; injection H as ->; exists k; auto.
  - intros H; destruct (IH H) as (k' & Hin & Hk'); exists k'; auto.
Qed.

Lemma containment_none (local_name : str) (lookup : dict Z) :
  containment local_name lookup = None <->
  forall k c, In (k, c) lookup -> contains k local_name = false.
Proof.
  induction lookup as [|[k c] lookup IH]; simpl.
  - split; [intros _ ? ? [] | reflexivity].
  - destruct (contains k local_name) eqn:E; split.
    + discriminate.
    + intros H; specialize (H k c (or_introl eq_refl)); congruence.
    + intros H k' c' [Heq | Hin]; [now injection Heq as <- <- |].
      now apply (proj1 IH H k' c').
    + intros H; apply IH; intros k' c' Hin; apply (H k' c'); now right.
Qed.

Lemma not_key_dict_get {V} (k : str) (d : dict V) :
  dict_get k d = None <-> ~ In k (keys d).
Proof.
  rewrite dict_get_in; destruct (dict_get k d) as [v|]; split;
    try discriminate; trivial.
  - intros H; exfalso; apply H; now exists v.
  - intros _ [v Hv]; discriminate.
Qed.

Lemma resolve_some (local_name : str) (lookup : dict Z) (c : Z) (t : tier) :
  resolve local_name lookup = Some (c, t) ->
  exists k,
    In (k, c) lookup /\ tier_relation t local_name k /\
    (t <> Exact -> ~ In local_name (keys lookup)).
Proof.
  unfold resolve.
  destruct (dict_get local_name lookup) as [v|] eqn:Eg.
  - intros H; injection H as -> <-; exists local_name.
    split; [now apply dict_get_some_in | split; [reflexivity | congruence]].
  - apply not_key_dict_get in Eg.
    destruct (containment local_name lookup) as [hit|] eqn:Ec.
    + intros H; injection H as -> <-.
      destruct (containment_some _ _ _ Ec) as (k & Hin & Hk).
      apply contains_spec in Hk; exists k; simpl; auto.
    + destruct (best_fuzzy_match local_name lookup MIN_SCORE) as [bc s] eqn:Ef.
      simpl; destruct bc as [c'|]; [|discriminate].
      intros H; injection H as -> <-.
      destruct (best_fuzzy_match_code _ _ _ _ _ Ef)
        as (k & Hin & Hs & Hmin & _ & Hl & Hk).
      exists k; simpl; rewrite Hs; auto.
Qed.

Lemma resolve_nil (local_name : str) : resolve local_name [] = None.
Proof.
  unfold resolve; cbn [dict_get containment].
  now rewrite (proj2 (best_fuzzy_match_nothing_to_match_aux
                        local_name [] MIN_SCORE)).
Qed.

Lemma resolve_empty_name (lookup : dict Z) :
  (resolve [] lookup = None <-> lookup = []) /\
  (forall c, resolve [] lookup <> Some (c, Fuzzy)).
Proof.
  unfold resolve.
  destruct (dict_get [] lookup) as [v|] eqn:Eg.
  - split; [split; [discriminate | intros ->; discriminate] | congruence].
  - destruct lookup as [|[k c] rest].
    + cbn [containment].
      rewrite (proj1 (best_fuzzy_match_nothing_to_match_aux [] [] MIN_SCORE)).
      simpl; split; [tauto | congruence].
    + simpl in Eg; destruct k as [|x k]; [discriminate|].
      simpl; split; [split; discriminate | congruence].
Qed.

(** X9. The resolver only returns codes that the index holds under a key
    related to the local name: the name itself for the exact tier; a
    non-empty key that is a substring of the name or has it as a substring
    for the containment tier; a non-empty key whose similarity to the
    non-empty name is at least 0.86 for the fuzzy tier.  The last two
    tiers answer only for a name that is not a key. *)
Theorem resolve_code_in_index :
  forall (local_name : str) (lookup : dict Z) (c : Z) (t : tier),
    resolve local_name lookup = Some (c, t) ->
    exists k,
      In (k, c) lookup /\ tier_relation t local_name k /\
      (t <> Exact -> ~ In local_name (keys lookup)).
Proof. exact resolve_some. Qed.

(** X10. Edge cases of the resolver.  With an empty index no name is
    matched and reconciliation changes no player and counts nothing.  An
    empty local name is matched by every index that is not empty, and
    never by the fuzzy tier. *)
Theorem resolve_empty_cases :
  forall (U : UnicodeData) (local_name : str) (lookup : dict Z)
         (local_players : list player),
    resolve local_name [] = None /\
    reconcile U [] local_players
    = (local_players, {| matches := 0; fuzzy_matches := 0 |}) /\
    (resolve [] lookup = None <-> lookup = []) /\
    (forall c, resolve [] lookup <> Some (c, Fuzzy)).
Proof.
  intros U local_name lookup local_players.
  split; [apply resolve_nil | split; [|apply resolve_empty_name]].
  unfold reconcile.
  generalize {| matches := 0; fuzzy_matches := 0 |}.
  induction local_players as [|p l IH]; intros n; cbn [reconcile_from]; trivial.
  unfold reconcile_player; rewrite resolve_nil, IH; reflexivity.
Qed.

(** X11. A name stays unmatched exactly when no key of the index is a
    candidate for it: no key is the name, no non-empty key is a substring
    of it or has it as a substring, and every key has a similarity below
    0.86. *)
Theorem resolve_none_iff_no_candidate :
  forall (local_name : str) (lookup : dict Z),
    resolve local_name lookup = None <->
    (forall k c, In (k, c) lookup ->
       k <> local_name /\
       ~ (k <> [] /\ (Substring k local_name \/ Substring local_name k)) /\
       (similarity local_name k < MIN_SCORE)%Q).
Proof.
  intros local_name lookup; split.
  - intros H k c Hin; unfold resolve in H.
    destruct (dict_get local_name lookup) as [v|] eqn:Eg; [discriminate|].
    destruct (containment local_name lookup) as [hit|] eqn:Ec; [discriminate|].
    destruct (fst (best_fuzzy_match local_name lookup MIN_SCORE)) as [c'|] eqn:Ef;
      [discriminate|].
    split; [|split].
    + intros ->; apply not_key_dict_get in Eg; apply Eg.
      apply in_map_iff; now exists (local_name, c).
    + intros Hk; apply contains_spec in Hk.
      rewrite (proj1 (containment_none _ _) Ec k c Hin) in Hk; discriminate.
    + destruct (Qlt_le_dec (similarity local_name k) MIN_SCORE) as [|Hge];
        trivial.
      assert (Hpos : (0 < similarity local_name k)%Q)
        by (apply Qlt_le_trans with MIN_SCORE; [reflexivity | trivial]).
      destruct (best_fuzzy_match_finds local_name lookup MIN_SCORE k c
                  Hin Hge Hpos) as [c' Hc'].
      congruence.
  - intros H; destruct (resolve local_name lookup) as [[c t]|] eqn:E; trivial.
    destruct (resolve_some _ _ _ _ E) as (k & Hin & Hrel & _).
    destruct (H k c Hin) as (Hne & Hnc & Hlt).
    destruct t; simpl in Hrel.
    + contradiction.
    + contradiction.
    + destruct Hrel as [Hge _]; exfalso; now apply (Qlt_not_le _ _ Hlt).
Qed.

Lemma resolve_code_in_index_witness :
  resolve (py "sonny") sonny_boy_lookup = Some (1%Z, Containment) /\
  exists k,
    In (k, 1%Z) sonny_boy_lookup /\
    tier_relation Containment (py "sonny") k /\
    (Containment <> Exact -> ~ In (py "sonny") (keys sonny_boy_lookup)).
Proof.
  assert (H : resolve (py "sonny") sonny_boy_lookup = Some (1%Z, Containment))
    by reflexivity.
  split; [exact H|].
  exact (resolve_code_in_index (py "sonny") sonny_boy_lookup 1%Z Containment H).
Defined.

(** ** The reconciliation loop in closed form *)

Section ReconcileClosed.
Variable U : UnicodeData.
Variable lookup : dict Z.

Lemma counters_eq (m m' f f' : Z) :
  m = m' -> f = f' ->
  {| matches := m; fuzzy_matches := f |}
  = {| matches := m'; fuzzy_matches := f' |}.
Proof. now intros -> ->. Qed.

Lemma reconcile_player_updated (p : player) (n : counters) :
  reconcile_player U lookup p n =
  (updated U lookup p,
   {| matches := matches n + Z_of_bool (is_matched U lookup p);
      fuzzy_matches :=
        fuzzy_matches n + Z_of_bool (is_fuzzy_matched U lookup p) |}).
Proof.
  unfold reconcile_player, updated, is_matched, is_fuzzy_matched.
  destruct n as [m f].
  destruct (resolve (normalize U (player_name p)) lookup) as [[c []]|];
    simpl; rewrite ?Z.add_0_r; reflexivity.
Qed.

(** The loop maps [updated] over the players and adds to each counter the
    number of players it concerns. *)
Lemma reconcile_from_closed (l : list player) (n : counters) :
  reconcile_from U lookup l n =
  (map (updated U lookup) l,
   {| matches :=
        matches n + Z.of_nat (List.length (filter (is_matched U lookup) l));
      fuzzy_matches :=
        fuzzy_matches n
        + Z.of_nat (List.length (filter (is_fuzzy_matched U lookup) l)) |}).
Proof.
  revert n; induction l as [|p l IH]; intros [m f].
  - simpl; now rewrite !Z.add_0_r.
  - cbn [reconcile_from map filter].
    rewrite reconcile_player_updated; cbv beta iota.
    rewrite IH; cbv beta iota; cbn [matches fuzzy_matches].
    f_equal; apply counters_eq;
      destruct (is_matched U lookup p), (is_fuzzy_matched U lookup p);
      cbn [Z_of_bool List.length]; rewrite ?Nat2Z.inj_succ; lia.
Qed.

Lemma updated_fields (p : player) :
  player_id (updated U lookup p) = player_id p /\
  player_name (updated U lookup p) = player_name p.
Proof.
  unfold updated.
  now destruct (resolve (normalize U (player_name p)) lookup) as [[c t]|].
Qed.

Lemma updated_twice (p : player) :
  updated U lookup (updated U lookup p) = updated U lookup p.
Proof.
  unfold updated at 1; rewrite (proj2 (updated_fields p)).
  unfold updated.
  now destruct (resolve (normalize U (player_name p)) lookup) as [[c t]|].
Qed.

Lemma matched_updated (p : player) :
  is_matched U lookup (updated U lookup p) = is_matched U lookup p /\
  is_fuzzy_matched U lookup (updated U lookup p) = is_fuzzy_matched U lookup p.
Proof.
  unfold is_matched, is_fuzzy_matched.
  now rewrite (proj2 (updated_fields p)).
Qed.

Lemma filter_map_updated (f : player -> bool) (l : list player) :
  (forall p, f (updated U lookup p) = f p) ->
  List.length (filter f (map (updated U lookup) l)) = List.length (filter f l).
Proof.
  intros Hf; induction l as [|p l IH]; simpl; trivial.
  rewrite Hf; destruct (f p); simpl; now rewrite IH.
Qed.
End ReconcileClosed.

(** X12. Reconciliation gives every matched player the code that the
    resolver returns for its normalised name: the player at the same
    position has that code as its [photoCode], whatever photo code it had
    before, and its id and name as they were.  No id and no name changes,
    and [fuzzy_matches] counts exactly the players matched by the fuzzy
    tier. *)
Theorem reconcile_assigns_resolved :
  forall (U : UnicodeData) (lookup : dict Z) (local_players : list player),
    let r := reconcile U lookup local_players in
    map player_id (fst r) = map player_id local_players /\
    map player_name (fst r) = map player_name local_players /\
    (forall i p c t,
        nth_error local_players i = Some p ->
        resolve (normalize U (player_name p)) lookup = Some (c, t) ->
        nth_error (fst r) i
        = Some {| player_id := player_id p; player_name := player_name p;
                  photoCode := Some c |}) /\
    (forall i p c t,
        nth_error local_players i = Some p ->
        resolve (normalize U (player_name p)) lookup = Some (c, t) ->
        nth_error (map photoCode (fst r)) i = Some (Some c)) /\
    fuzzy_matches (snd r) =
      Z.of_nat (List.length (filter (is_fuzzy_matched U lookup) local_players)).
Proof.
  intros U lookup l r; subst r; unfold reconcile.
  rewrite reconcile_from_closed; cbn [fst snd fuzzy_matches].
  rewrite !map_map; repeat split.
  - apply map_ext; intros p; apply updated_fields.
  - apply map_ext; intros p; apply updated_fields.
  - intros i p c t Hi Hr.
    rewrite nth_error_map, Hi; simpl; unfold updated; now rewrite Hr.
  - intros i p c t Hi Hr.
    rewrite nth_error_map, Hi; simpl; unfold updated; now rewrite Hr.
Qed.

(** X13. Reconciling the reconciled players again changes nothing and
    gives the same report: the names are what decides, and they are not
    touched. *)
Theorem reconcile_idempotent :
  forall (U : UnicodeData) (lookup : dict Z) (local_players : list player),
    reconcile U lookup (fst (reconcile U lookup local_players))
    = reconcile U lookup local_players.
Proof.
  intros U lookup l; unfold reconcile.
  rewrite !reconcile_from_closed; cbn [fst].
  rewrite map_map.
  rewrite (filter_map_updated U lookup (is_matched U lookup))
    by (intros p; apply matched_updated).
  rewrite (filter_map_updated U lookup (is_fuzzy_matched U lookup))
    by (intros p; apply matched_updated).
  f_equal; apply map_ext; intros p; apply updated_twice.
Qed.

(** X14. Players are reconciled independently of each other: the result
    for a concatenation is the concatenation of the results, and the
    counters add up. *)
Theorem reconcile_app :
  forall (U : UnicodeData) (lookup : dict Z) (l1 l2 : list player),
    let r := reconcile U lookup (l1 ++ l2) in
    let r1 := reconcile U lookup l1 in
    let r2 := reconcile U lookup l2 in
    fst r = fst r1 ++ fst r2 /\
    matches (snd r) = (matches (snd r1) + matches (snd r2))%Z /\
    fuzzy_matches (snd r)
    = (fuzzy_matches (snd r1) + fuzzy_matches (snd r2))%Z.
Proof.
  intros U lookup l1 l2; unfold reconcile; cbv zeta.
  rewrite !reconcile_from_closed; cbn [fst snd matches fuzzy_matches].
  rewrite map_app, !filter_app, !length_app; repeat split; lia.
Qed.

(** ** The map from local id to photo code *)

Lemma core_map_fold (local_players : list player) :
  core_map local_players = fold_left core_step local_players [].
Proof. reflexivity. Qed.

Lemma has_photoCode_spec (p : player) :
  has_photoCode p = true <-> exists c, photoCode p = Some c /\ c <> 0%Z.
Proof.
  unfold has_photoCode; destruct (photoCode p) as [c|].
  - rewrite negb_true_iff, Z.eqb_neq; split.
    + intros H; now exists c.
    + intros (c' & Hc & Hne); now injection Hc as ->.
  - split; [discriminate | intros (c & Hc & _); discriminate].
Qed.

Lemma core_step_get (m : dict Z) (p : player) (k : str) :
  dict_get k (core_step m p) =
  if has_photoCode p && str_eqb k (player_id p) then photoCode p
  else dict_get k m.
Proof.
  unfold core_step, has_photoCode; destruct (photoCode p) as [c|]; trivial.
  destruct (c =? 0)%Z; simpl; trivial.
  apply dict_get_set.
Qed.

Lemma fold_core_step_get_other (post : list player) (m : dict Z) (k : str) :
  (forall q, In q post -> player_id q = k -> has_photoCode q = false) ->
  dict_get k (fold_left core_step post m) = dict_get k m.
Proof.
  revert m; induction post as [|q post IH]; intros m H; simpl; trivial.
  rewrite IH by (intros q' Hq'; apply H; now right).
  rewrite core_step_get.
  destruct (has_photoCode q) eqn:Eh; trivial.
  destruct (str_eqb k (player_id q)) eqn:Ek; trivial.
  apply str_eqb_eq in Ek.
  rewrite (H q (or_introl eq_refl) (eq_sym Ek)) in Eh; discriminate.
Qed.

Lemma core_map_get_last (pre post : list player) (p : player) :
  has_photoCode p = true ->
  (forall q, In q post -> player_id q = player_id p -> has_photoCode q = false) ->
  dict_get (player_id p) (core_map (pre ++ p :: post)) = photoCode p.
Proof.
  intros Hp Hpost; rewrite core_map_fold, fold_left_app; cbn [fold_left].
  rewrite fold_core_step_get_other by trivial.
  now rewrite core_step_get, Hp, str_eqb_refl.
Qed.

Lemma fold_core_step_entries (l : list player) (m : dict Z) :
  (NoDup (keys m) -> NoDup (keys (fold_left core_step l m))) /\
  (forall k c, In (k, c) (fold_left core_step l m) ->
     In (k, c) m \/
     (c <> 0%Z /\ exists p, In p l /\ player_id p = k /\ photoCode p = Some c)).
Proof.
  revert m; induction l as [|p l IH]; intros m; simpl; [auto|].
  destruct (IH (core_step m p)) as [Hn He]; split.
  - intros H; apply Hn; unfold core_step.
    destruct (photoCode p) as [c|]; trivial.
    destruct (c =? 0)%Z; trivial.
    now apply NoDup_keys_dict_set.
  - intros k c H; destruct (He k c H) as [H0 | (Hc & q & Hq & Hk & Hp)].
    + unfold core_step in H0.
      destruct (photoCode p) as [c0|] eqn:Ep; [|now left].
      destruct (Z.eqb_spec c0 0); [now left|].
      apply in_dict_set in H0 as [[-> ->] | H0]; [|now left].
      right; split; trivial; exists p; auto.
    + right; split; trivial; exists q; auto.
Qed.

Lemma core_map_entries (local_players : list player) (k : str) (c : Z) :
  In (k, c) (core_map local_players) ->
  c <> 0%Z /\
  exists p, In p local_players /\ player_id p = k /\ photoCode p = Some c.
Proof.
  rewrite core_map_fold; intros H.
  destruct (proj2 (fold_core_step_entries local_players []) k c H) as [[] | H'].
  exact H'.
Qed.

(** ** The sync loop in closed form *)

Lemma sync_from_closed (m : dict Z) (l : list ui_player) (synced : Z) :
  sync_from m l synced =
  (map (ui_updated m) l,
   (synced + Z.of_nat (List.length (filter (is_synced m) l)))%Z).
Proof.
  revert synced; induction l as [|p l IH]; intros synced.
  - simpl; now rewrite Z.add_0_r.
  - cbn [sync_from map filter].
    unfold sync_player at 1, ui_updated at 1, is_synced at 1, dict_mem.
    destruct (dict_get (base_id p) m) as [c|]; rewrite IH;
      cbn [List.length]; rewrite ?Nat2Z.inj_succ; f_equal; lia.
Qed.

Lemma ui_updated_fields (m : dict Z) (p : ui_player) :
  ui_id (ui_updated m p) = ui_id p /\
  basePlayerId (ui_updated m p) = basePlayerId p /\
  base_id (ui_updated m p) = base_id p.
Proof. unfold ui_updated; now destruct (dict_get (base_id p) m). Qed.

Lemma take_while_all (f : char -> bool) (s : str) :
  Forall (fun c => f c = true) (take_while f s).
Proof.
  induction s as [|c s IH]; simpl; [constructor|].
  destruct (f c) eqn:E; constructor; trivial.
Qed.

(** The join key of a UI player holds no hyphen. *)
Lemma base_id_no_hyphen (p : ui_player) : ~ In HYPHEN (base_id p).
Proof.
  unfold base_id, split_head; intros H.
  pose proof (take_while_all (fun c => negb (c =? HYPHEN)%N)
                (or_str (basePlayerId p) (or_str (ui_id p) []))) as Hall.
  rewrite Forall_forall in Hall; specialize (Hall _ H).
  now rewrite N.eqb_refl in Hall.
Qed.

(** X15. Propagation keeps the UI players in place with their [id] and
    [basePlayerId]; [synced] is the number of UI players whose join key is
    in the map, between 0 and their number; the others are left as they
    were. *)
Theorem propagate_counts :
  forall (ui_players : list ui_player) (local_players : list player),
    let m := core_map local_players in
    let r := propagate ui_players local_players in
    map ui_id (fst r) = map ui_id ui_players /\
    map basePlayerId (fst r) = map basePlayerId ui_players /\
    snd r = Z.of_nat (List.length (filter (is_synced m) ui_players)) /\
    (0 <= snd r <= Z.of_nat (List.length ui_players))%Z /\
    (forall i q, nth_error ui_players i = Some q -> is_synced m q = false ->
                 nth_error (fst r) i = Some q).
Proof.
  intros ui locals m r; subst m r; unfold propagate.
  rewrite sync_from_closed; cbn [fst snd]; rewrite !map_map.
  pose proof (filter_length_le (is_synced (core_map locals)) ui) as Hle.
  repeat split; try lia.
  - apply map_ext; intros p; apply ui_updated_fields.
  - apply map_ext; intros p; apply ui_updated_fields.
  - intros i q Hi Hq; rewrite nth_error_map, Hi; simpl.
    unfold is_synced, dict_mem in Hq; unfold ui_updated.
    now destruct (dict_get (base_id q) (core_map locals)).
Qed.

(** X16. A UI player whose join key is in the map receives the photo code
    of a local player with that id: after propagation the UI player at
    the same position has that code as its [photoCode] and its [id] and
    [basePlayerId] as they were.  The code is never 0, a falsy photo code
    being left out of the map. *)
Theorem propagate_assigns_local_code :
  forall (ui_players : list ui_player) (local_players : list player)
         (i : nat) (q : ui_player),
    nth_error ui_players i = Some q ->
    is_synced (core_map local_players) q = true ->
    exists c p,
      nth_error (fst (propagate ui_players local_players)) i
      = Some {| ui_id := ui_id q; basePlayerId := basePlayerId q;
                ui_photoCode := Some c |} /\
      c <> 0%Z /\ In p local_players /\
      player_id p = base_id q /\ photoCode p = Some c.
Proof.
  intros ui locals i q Hi Hq; unfold propagate.
  rewrite sync_from_closed; cbn [fst].
  unfold is_synced, dict_mem in Hq.
  destruct (dict_get (base_id q) (core_map locals)) as [c|] eqn:Eg;
    [|discriminate].
  destruct (core_map_entries locals (base_id q) c (dict_get_some_in _ _ _ Eg))
    as (Hc & p & Hp & Hid & Hcode).
  exists c, p; repeat split; trivial.
  rewrite nth_error_map, Hi; simpl; unfold ui_updated; now rewrite Eg.
Qed.

(** X17. Among the local players with the same id, the last one with a
    truthy photo code gives the entry of the map. *)
Theorem core_map_last_wins :
  forall (pre post : list player) (p : player),
    has_photoCode p = true ->
    (forall q, In q post -> player_id q = player_id p ->
               has_photoCode q = false) ->
    dict_get (player_id p) (core_map (pre ++ p :: post)) = photoCode p.
Proof. exact core_map_get_last. Qed.

(** X18. The join key is cut at the first hyphen while the keys of the map
    are whole ids: when every local player that has a photo code has a
    hyphen in its id, no UI player is synced, not even one whose id is
    the id of a local player. *)
Theorem hyphenated_ids_never_sync :
  forall (ui_players : list ui_player) (local_players : list player),
    (forall p, In p local_players -> has_photoCode p = true ->
               In HYPHEN (player_id p)) ->
    propagate ui_players local_players = (ui_players, 0%Z).
Proof.
  intros ui locals H; unfold propagate; rewrite sync_from_closed.
  assert (Hnone : forall q, dict_get (base_id q) (core_map locals) = None).
  { intros q; destruct (dict_get (base_id q) (core_map locals)) as [c|] eqn:Eg;
      trivial.
    destruct (core_map_entries locals _ c (dict_get_some_in _ _ _ Eg))
      as (Hc & p & Hp & Hid & Hcode).
    exfalso; apply (base_id_no_hyphen q); rewrite <- Hid.
    apply H; trivial; apply has_photoCode_spec; now exists c. }
  f_equal.
  - rewrite <- (map_id ui) at 2; apply map_ext; intros q.
    unfold ui_updated; now rewrite Hnone.
  - replace (filter (is_synced (core_map locals)) ui) with (@nil ui_player);
      trivial.
    symmetry; induction ui as [|q ui IH]; simpl; trivial.
    unfold is_synced at 1, dict_mem; now rewrite Hnone.
Qed.

(** The second of two UI players is joined to the second of two local
    players and gets its code 101, not the code 5 of the first; the
    first UI player is joined to nobody and keeps no photo code. *)
Lemma propagate_assigns_local_code_witness :
  nth_error [stranger_ui; variant_A] 1 = Some variant_A /\
  is_synced (core_map [hyphen_local; local_1]) variant_A = true /\
  map ui_photoCode (fst (propagate [stranger_ui; variant_A]
                                   [hyphen_local; local_1]))
  = [None; Some 101%Z] /\
  exists c p,
    nth_error (fst (propagate [stranger_ui; variant_A]
                              [hyphen_local; local_1])) 1
    = Some {| ui_id := ui_id variant_A; basePlayerId := basePlayerId variant_A;
              ui_photoCode := Some c |} /\
    c <> 0%Z /\ In p [hyphen_local; local_1] /\
    player_id p = base_id variant_A /\ photoCode p = Some c.
Proof.
  split; [reflexivity | split; [reflexivity | split; [reflexivity|]]].
  exact (propagate_assigns_local_code [stranger_ui; variant_A]
           [hyphen_local; local_1] 1 variant_A eq_refl eq_refl).
Defined.

Lemma core_map_last_wins_witness :
  has_photoCode local_1 = true /\
  dict_get (player_id local_1) (core_map ([hyphen_local] ++ local_1 :: []))
  = photoCode local_1.
Proof.
  split; [reflexivity|].
  apply (core_map_last_wins [hyphen_local] [] local_1); [reflexivity|].
  intros q [].
Defined.

Lemma hyphenated_ids_never_sync_witness :
  has_photoCode hyphen_local = true /\
  ui_id hyphen_ui = Some (player_id hyphen_local) /\
  propagate [hyphen_ui] [hyphen_local] = ([hyphen_ui], 0%Z).
Proof.
  split; [reflexivity | split; [reflexivity|]].
  apply (hyphenated_ids_never_sync [hyphen_ui] [hyphen_local]).
  intros p [<- | []] _; vm_compute; auto.
Defined.

(** ** The script as a whole *)

Lemma run_closed (U : UnicodeData) (fpl_elements : list element)
      (local_players : list player) (ui_players : list ui_player) :
  run U fpl_elements local_players ui_players =
  (fst (reconcile U (fpl_lookup U fpl_elements) local_players),
   snd (reconcile U (fpl_lookup U fpl_elements) local_players),
   propagate ui_players
     (map (updated U (fpl_lookup U fpl_elements)) local_players)).
Proof.
  unfold run, reconcile; now rewrite reconcile_from_closed.
Qed.

Lemma ui_updated_twice (m : dict Z) (q : ui_player) :
  ui_updated m (ui_updated m q) = ui_updated m q /\
  is_synced m (ui_updated m q) = is_synced m q.
Proof.
  unfold is_synced, dict_mem.
  unfold ui_updated at 1; rewrite (proj2 (proj2 (ui_updated_fields m q))).
  unfold ui_updated; now destruct (dict_get (base_id q) m).
Qed.

(** X19. From the index to the UI players.  When the local ids are
    distinct, a local player that some tier matches with a code other than
    0 passes that code on to every UI player joined to its id: after the
    run such a UI player has that code as its [photoCode] and its [id]
    and [basePlayerId] as they were. *)
Theorem run_propagates_match :
  forall (U : UnicodeData) (fpl_elements : list element)
         (local_players : list player) (ui_players : list ui_player)
         (i j : nat) (p : player) (q : ui_player) (c : Z) (t : tier),
    NoDup (map player_id local_players) ->
    nth_error local_players i = Some p ->
    resolve (normalize U (player_name p)) (fpl_lookup U fpl_elements)
    = Some (c, t) ->
    c <> 0%Z ->
    nth_error ui_players j = Some q ->
    base_id q = player_id p ->
    nth_error (fst (snd (run U fpl_elements local_players ui_players))) j
    = Some {| ui_id := ui_id q; basePlayerId := basePlayerId q;
              ui_photoCode := Some c |}.
Proof.
  intros U elements locals ui i j p q c t Hnd Hi Hr Hc Hj Hq.
  rewrite run_closed; cbn [snd]; unfold propagate.
  rewrite sync_from_closed; cbn [fst].
  rewrite nth_error_map, Hj; simpl; f_equal.
  set (lookup := fpl_lookup U elements) in *.
  assert (Hup : updated U lookup p = set_photoCode p c)
    by (unfold updated; now rewrite Hr).
  apply nth_error_split in Hi as (l1 & l2 & -> & _).
  unfold ui_updated; rewrite Hq.
  replace (player_id p) with (player_id (updated U lookup p))
    by apply updated_fields.
  rewrite map_app; cbn [map].
  rewrite core_map_get_last.
  - now rewrite Hup.
  - rewrite Hup; unfold has_photoCode; simpl.
    apply negb_true_iff; now apply Z.eqb_neq.
  - intros q' Hq' Hid; exfalso.
    apply in_map_iff in Hq' as (q0 & <- & Hq0).
    rewrite !(proj1 (updated_fields U lookup _)) in Hid.
    rewrite map_app in Hnd; cbn [map] in Hnd.
    apply NoDup_remove_2 in Hnd; apply Hnd, in_or_app; right.
    rewrite <- Hid; now apply in_map.
Qed.

(** X20. Running the script again on what it wrote changes nothing: the
    same players, the same UI players, the same three counts. *)
Theorem run_idempotent :
  forall (U : UnicodeData) (fpl_elements : list element)
         (local_players : list player) (ui_players : list ui_player),
    let r := run U fpl_elements local_players ui_players in
    run U fpl_elements (fst (fst r)) (fst (snd r)) = r.
Proof.
  intros U elements locals ui r; subst r.
  rewrite !run_closed; cbn [fst snd].
  set (lookup := fpl_lookup U elements).
  unfold reconcile, propagate.
  rewrite !reconcile_from_closed, !sync_from_closed; cbn [fst snd].
  rewrite !map_map.
  rewrite (filter_map_updated U lookup (is_matched U lookup))
    by (intros p; apply matched_updated).
  rewrite (filter_map_updated U lookup (is_fuzzy_matched U lookup))
    by (intros p; apply matched_updated).
  assert (Hl : map (fun p => updated U lookup (updated U lookup p)) locals
               = map (updated U lookup) locals)
    by (apply map_ext; intros p; apply updated_twice).
  rewrite Hl.
  set (m := core_map (map (updated U lookup) locals)).
  assert (Hu : map (fun q => ui_updated m (ui_updated m q)) ui
               = map (ui_updated m) ui)
    by (apply map_ext; intros q; apply ui_updated_twice).
  rewrite Hu.
  assert (Hf : List.length (filter (is_synced m) (map (ui_updated m) ui))
               = List.length (filter (is_synced m) ui)).
  { clear Hu; induction ui as [|q ui IH]; simpl; trivial.
    rewrite (proj2 (ui_updated_twice m q)).
    destruct (is_synced m q); simpl; now rewrite IH. }
  now rewrite Hf.
Qed.

Lemma run_propagates_match_witness :
  NoDup (map player_id [mo_salah]) /\
  resolve (normalize ucd (player_name mo_salah)) (fpl_lookup ucd [salah_element])
  = Some (101%Z, Containment) /\
  base_id variant_A = player_id mo_salah /\
  nth_error (fst (snd (run ucd [salah_element] [mo_salah] [variant_A]))) 0
  = Some {| ui_id := None; basePlayerId := Some (py "1-variantA");
            ui_photoCode := Some 101%Z |}.
Proof.
  assert (Hnd : NoDup (map player_id [mo_salah]))
    by (constructor; [intros [] | constructor]).
  assert (Hr : resolve (normalize ucd (player_name mo_salah))
                       (fpl_lookup ucd [salah_element])
               = Some (101%Z, Containment)) by reflexivity.
  split; [exact Hnd | split; [exact Hr | split; [reflexivity|]]].
  apply (run_propagates_match ucd [salah_element] [mo_salah] [variant_A]
           0 0 mo_salah variant_A 101%Z Containment Hnd eq_refl Hr).
  - discriminate.
  - reflexivity.
  - reflexivity.
Defined.

(** ** The normaliser on ASCII names *)

(** A test that holds of the 128 ASCII characters holds of each. *)
Lemma ascii_forall (f : char -> bool) :
  forallb f (map N.of_nat (seq 0 128)) = true ->
  forall c, is_ascii c = true -> f c = true.
Proof.
  intros H c Hc; rewrite forallb_forall in H; apply H.
  apply N.ltb_lt in Hc.
  rewrite <- (N2Nat.id c); apply in_map, in_seq; lia.
Qed.

Lemma lower_char_ascii (c : char) :
  is_ascii c = true -> forallb uncapitalised (UCD.lower_char c) = true.
Proof.
  revert c; apply (ascii_forall (fun c => forallb uncapitalised (UCD.lower_char c))).
  vm_compute; reflexivity.
Qed.

Lemma decompose_char_ascii (c : char) :
  is_ascii c = true -> str_eqb (UCD.decompose_char c) [c] = true.
Proof.
  revert c; apply (ascii_forall (fun c => str_eqb (UCD.decompose_char c) [c])).
  vm_compute; reflexivity.
Qed.

Lemma word_char_ascii (c : char) :
  is_ascii c = true ->
  implb (negb (UCD.ascii_upper c) && negb (UCD.space c) && is_word ucd c)
        (plain_char c) = true.
Proof.
  revert c;
    apply (ascii_forall
             (fun c => implb (negb (UCD.ascii_upper c) && negb (UCD.space c)
                              && is_word ucd c) (plain_char c))).
  vm_compute; reflexivity.
Qed.

Lemma plain_char_fixed (c : char) :
  is_ascii c = true ->
  implb (plain_char c)
        (str_eqb (UCD.lower_char c) [c] && str_eqb (UCD.decompose_char c) [c]
         && (UCD.combining_class c =? 0)%N) = true.
Proof.
  revert c;
    apply (ascii_forall
             (fun c => implb (plain_char c)
                         (str_eqb (UCD.lower_char c) [c]
                          && str_eqb (UCD.decompose_char c) [c]
                          && (UCD.combining_class c =? 0)%N))).
  vm_compute; reflexivity.
Qed.

Lemma plain_char_ascii (c : char) : plain_char c = true -> is_ascii c = true.
Proof.
  unfold plain_char, is_ascii, UCD.ascii_lower, UCD.ascii_digit,
    UNDERSCORE, SPACE.
  rewrite !orb_true_iff, !andb_true_iff, !N.leb_le, !N.eqb_eq, N.ltb_lt; lia.
Qed.

Lemma flat_map_singletons (f : char -> str) (s : str) :
  Forall (fun c => f c = [c]) s -> flat_map f s = s.
Proof.
  induction 1 as [|c s Hc _ IH]; simpl; trivial.
  now rewrite Hc, IH.
Qed.

Lemma Forall_flat_map (P : char -> Prop) (f : char -> str) (s : str) :
  Forall (fun c => Forall P (f c)) s -> Forall P (flat_map f s).
Proof.
  induction 1 as [|c s Hc _ IH]; simpl; [constructor|].
  apply Forall_app; auto.
Qed.

Section Characters.
Variable U : UnicodeData.

(** The characters that come out of [collapse_ws] and [strip]. *)
Lemma collapse_ws_in (in_run : bool) (s : str) (c : char) :
  In c (collapse_ws U in_run s) ->
  c = SPACE \/ (In c s /\ isspace U c = false).
Proof.
  revert in_run; induction s as [|x s IH]; intros in_run; simpl; [tauto|].
  destruct (isspace U x) eqn:E.
  - destruct in_run; simpl.
    + intros H; destruct (IH _ H) as [? | [? ?]]; auto.
    + intros [<- | H]; [now left|].
      destruct (IH _ H) as [? | [? ?]]; auto.
  - simpl; intros [<- | H]; [auto|].
    destruct (IH _ H) as [? | [? ?]]; auto.
Qed.

Lemma drop_while_in (f : char -> bool) (s : str) (c : char) :
  In c (drop_while f s) -> In c s.
Proof.
  destruct (drop_while_suffix f s) as [p Hp]; intros H.
  rewrite Hp; apply in_or_app; now right.
Qed.

Lemma strip_in (s : str) (c : char) : In c (strip U s) -> In c s.
Proof.
  unfold strip; intros H.
  apply in_rev, drop_while_in, in_rev in H.
  now apply drop_while_in in H.
Qed.
End Characters.

Lemma normalize_ascii_chars (s : str) :
  Forall (fun c => is_ascii c = true) s ->
  Forall (fun c => plain_char c = true) (normalize ucd s).
Proof.
  intros Hs; unfold normalize; destruct (nonempty s); [|constructor].
  assert (H1 : Forall (fun c => uncapitalised c = true) (str_lower ucd s)).
  { apply Forall_flat_map; revert Hs; apply Forall_impl; intros c Hc.
    apply Forall_forall, forallb_forall, lower_char_ascii, Hc. }
  assert (H2 : Forall (fun c => uncapitalised c = true)
                      (replace_hyphen (str_lower ucd s))).
  { unfold replace_hyphen; apply Forall_map; revert H1; apply Forall_impl.
    intros c Hc; now destruct (c =? HYPHEN)%N. }
  assert (H3 : nfkd ucd (replace_hyphen (str_lower ucd s))
               = replace_hyphen (str_lower ucd s)).
  { apply flat_map_singletons; revert H2; apply Forall_impl; intros c Hc.
    apply str_eqb_eq, decompose_char_ascii.
    unfold uncapitalised in Hc; now apply andb_true_iff in Hc. }
  rewrite H3; apply Forall_forall; intros c Hc.
  apply strip_in, collapse_ws_in in Hc as [-> | [Hc Hsp]]; [reflexivity|].
  unfold drop_non_word, drop_combining in Hc.
  apply filter_In in Hc as [Hc Hw]; apply filter_In in Hc as [Hc _].
  rewrite Forall_forall in H2; specialize (H2 c Hc).
  unfold uncapitalised in H2; apply andb_true_iff in H2 as [Ha Hu].
  pose proof (word_char_ascii c Ha) as Himp.
  simpl isspace in Hsp, Hw; rewrite Hsp, orb_false_r in Hw.
  now rewrite Hu, Hsp, Hw in Himp.
Qed.

Lemma plain_case_and_accent_free (s : str) :
  Forall (fun c => plain_char c = true) s -> case_and_accent_free ucd s.
Proof.
  intros H.
  assert (Hc : Forall (fun c => UCD.lower_char c = [c] /\
                                UCD.decompose_char c = [c] /\
                                UCD.combining_class c = 0%N) s).
  { revert H; apply Forall_impl; intros c Hc.
    pose proof (plain_char_fixed c (plain_char_ascii c Hc)) as Himp.
    rewrite Hc in Himp; simpl in Himp.
    apply andb_true_iff in Himp as [Himp H3].
    apply andb_true_iff in Himp as [H1 H2].
    apply str_eqb_eq in H1, H2; apply N.eqb_eq in H3; auto. }
  repeat split.
  - apply flat_map_singletons; revert Hc; apply Forall_impl; tauto.
  - apply flat_map_singletons; revert Hc; apply Forall_impl; tauto.
  - revert Hc; apply Forall_impl; tauto.
Qed.

(** X21. Whatever the Unicode tables and the name, [normalize] returns
    word characters (alphanumeric or underscore, not white space) and
    spaces, with no two white-space characters in a row and none at
    either end. *)
Theorem normalized_name_shape :
  forall (U : UnicodeData) (name : str),
    Forall (name_char U) (normalize U name) /\
    single_spaced U (normalize U name) /\
    trimmed U (normalize U name).
Proof. exact normalize_shape. Qed.

(** X22. With tables in which the space is white space and the hyphen is
    not alphanumeric, a second pass of [normalize] changes nothing
    whenever the first result is left as it is by lowercasing, by the
    decomposition and by the removal of combining marks. *)
Theorem normalize_idempotent_on_plain_result :
  forall (U : UnicodeData) (name : str),
    isspace U SPACE = true ->
    isalnum U HYPHEN = false ->
    case_and_accent_free U (normalize U name) ->
    normalize U (normalize U name) = normalize U name.
Proof.
  intros U name Hs Hh; now apply normalize_idempotent_when_free.
Qed.

(** X23. On an ASCII name [normalize] returns only the letters a-z, the
    digits, the underscore and the space. *)
Theorem normalize_ascii_alphabet :
  forall (s : str),
    Forall (fun c => is_ascii c = true) s ->
    Forall (fun c => plain_char c = true) (normalize ucd s).
Proof. exact normalize_ascii_chars. Qed.

(** X24. On ASCII names [normalize] is idempotent. *)
Theorem normalize_ascii_idempotent :
  forall (s : str),
    Forall (fun c => is_ascii c = true) s ->
    normalize ucd (normalize ucd s) = normalize ucd s.
Proof.
  intros s Hs; apply normalize_idempotent_when_free; try reflexivity.
  now apply plain_case_and_accent_free, normalize_ascii_chars.
Qed.

Lemma normalize_idempotent_on_plain_result_witness :
  case_and_accent_free ucd (normalize ucd (py "Mo Salah")) /\
  normalize ucd (normalize ucd (py "Mo Salah")) = normalize ucd (py "Mo Salah").
Proof.
  assert (H : case_and_accent_free ucd (normalize ucd (py "Mo Salah")))
    by (repeat split; try reflexivity; repeat constructor).
  split; [exact H|].
  exact (normalize_idempotent_on_plain_result ucd (py "Mo Salah")
           eq_refl eq_refl H).
Defined.

Lemma normalize_ascii_alphabet_witness :
  Forall (fun c => is_ascii c = true) (py "O'Neil_Jr.-X") /\
  Forall (fun c => plain_char c = true) (normalize ucd (py "O'Neil_Jr.-X")).
Proof.
  assert (H : Forall (fun c => is_ascii c = true) (py "O'Neil_Jr.-X"))
    by (repeat constructor).
  split; [exact H | exact (normalize_ascii_alphabet (py "O'Neil_Jr.-X") H)].
Defined.

Lemma normalize_ascii_idempotent_witness :
  Forall (fun c => is_ascii c = true) (py "O'Neil_Jr.-X") /\
  normalize ucd (normalize ucd (py "O'Neil_Jr.-X"))
  = normalize ucd (py "O'Neil_Jr.-X").
Proof.
  assert (H : Forall (fun c => is_ascii c = true) (py "O'Neil_Jr.-X"))
    by (repeat constructor).
  split; [exact H | exact (normalize_ascii_idempotent (py "O'Neil_Jr.-X") H)].
Defined.

(** ** The index and the exact tier together *)

(** X25. A player whose normalised name is one of the three keys of an
    element is matched by the exact tier with the code of the last
    element that has this key: the player gets that code as its
    [photoCode], keeps its id and name, and is counted as matched but not
    as a fuzzy match. *)
Theorem exact_match_takes_last_element :
  forall (U : UnicodeData) (pre post : list element) (e : element)
         (p : player) (n : counters),
    In (normalize U (player_name p)) (element_keys U e) ->
    (forall q, In q post ->
               ~ In (normalize U (player_name p)) (element_keys U q)) ->
    reconcile_player U (fpl_lookup U (pre ++ e :: post)) p n =
    ({| player_id := player_id p; player_name := player_name p;
        photoCode := Some (code e) |},
     {| matches := matches n + 1; fuzzy_matches := fuzzy_matches n |}).
Proof.
  intros U pre post e p n Hk Hpost.
  change {| player_id := player_id p; player_name := player_name p;
            photoCode := Some (code e) |} with (set_photoCode p (code e)).
  apply reconcile_player_hit with (t := Exact); [|discriminate].
  unfold resolve, fpl_lookup.
  rewrite fold_left_app; cbn [fold_left].
  rewrite fold_add_element_get_other by trivial.
  now rewrite add_element_get_own.
Qed.

Lemma exact_match_takes_last_element_witness :
  In (normalize ucd (py "LEE")) (element_keys ucd bob_lee) /\
  reconcile_player ucd (fpl_lookup ucd ([ann_lee] ++ bob_lee :: []))
    {| player_id := py "9"; player_name := py "LEE"; photoCode := Some 1%Z |}
    {| matches := 0; fuzzy_matches := 0 |}
  = ({| player_id := py "9"; player_name := py "LEE"; photoCode := Some 2%Z |},
     {| matches := 0 + 1; fuzzy_matches := 0 |}).
Proof.
  assert (H : In (normalize ucd (py "LEE")) (element_keys ucd bob_lee))
    by (right; right; left; reflexivity).
  split; [exact H|].
  apply (exact_match_takes_last_element ucd [ann_lee] [] bob_lee
           {| player_id := py "9"; player_name := py "LEE";
              photoCode := Some 1%Z |}
           {| matches := 0; fuzzy_matches := 0 |} H).
  intros q [].
Defined.

(** ** A string compared with itself *)

Lemma firstn_snoc (a : str) (j : nat) (x : char) :
  nth_error a j = Some x -> firstn (S j) a = firstn j a ++ [x].
Proof.
  revert j; induction a as [|y a IH]; intros [|j] H; try discriminate.
  - now injection H as ->.
  - cbn [nth_error] in H; cbn [firstn app]; f_equal; now apply IH.
Qed.

Section Diagonal.
Variable pop : char -> bool.
Variable a : str.

Lemma diag_run_0 : diag_run pop a 0 = 0%nat.
Proof. reflexivity. Qed.

Lemma diag_run_S (j : nat) (x : char) :
  nth_error a j = Some x ->
  diag_run pop a (S j) = if pop x then 0%nat else S (diag_run pop a j).
Proof.
  intros H; unfold diag_run.
  rewrite (firstn_snoc a j x H), rev_app_distr; simpl.
  now destruct (pop x).
Qed.

Lemma nth_j2len_row (ai : char) (b : str) (prev : list nat) (j : nat) :
  nth j (Difflib.j2len_row pop ai b prev) 0%nat =
  match nth_error b j with
  | Some bj =>
      if (ai =? bj)%N && negb (pop bj) then S (nth j prev 0%nat) else 0%nat
  | None => 0%nat
  end.
Proof.
  revert prev j; induction b as [|bj b IH]; intros prev [|j]; simpl; trivial.
  - now destruct prev.
  - rewrite IH; now destruct prev as [|p [|q prev]], j.
Qed.

(** The row of a character of [a] against [a] itself: an entry is bounded
    by the runs of unpopular characters ending in its column and in its
    row, and the entry on the diagonal is that run. *)
Lemma prev_ok_step (i : nat) (ai : char) (prev : list nat) :
  prev_ok pop a i prev -> nth_error a i = Some ai ->
  prev_ok pop a (S i) (Difflib.j2len_row pop ai a (0%nat :: prev)).
Proof.
  intros Hprev Hi j; rewrite nth_j2len_row.
  assert (Hp : (nth j (0%nat :: prev) 0 <= diag_run pop a j)%nat /\
               (nth j (0%nat :: prev) 0 <= diag_run pop a i)%nat /\
               (i = j -> nth j (0%nat :: prev) 0%nat = diag_run pop a i)).
  { destruct j as [|j]; cbn [nth].
    - split; [lia | split; [lia | now intros ->]].
    - destruct (Hprev j) as (H1 & H2 & H3); auto. }
  destruct Hp as (Hp1 & Hp2 & Hp3).
  rewrite (diag_run_S i ai Hi).
  destruct (nth_error a j) as [aj|] eqn:Ej.
  - rewrite (diag_run_S j aj Ej).
    destruct (N.eqb_spec ai aj) as [<- | Hne]; cbn [andb].
    + destruct (pop ai); cbn [negb].
      * split; [lia | split; [lia | reflexivity]].
      * split; [lia | split; [lia|]].
        intros Heq; injection Heq as Heq; now rewrite (Hp3 Heq).
    + split; [lia | split; [lia|]].
      intros Heq; injection Heq as ->; congruence.
  - split; [lia | split; [lia|]].
    intros Heq; injection Heq as ->; congruence.
Qed.

(** Scanning such a row moves the best block only on the diagonal. *)
Lemma scan_row_diag (i D : nat) (row : list nat) (j x bs : nat) :
  (forall idx k, nth_error row idx = Some k ->
     (j + idx < i -> k <= bs)%nat /\
     (j + idx = i -> k = D)%nat /\
     (i < j + idx -> k <= D)%nat) ->
  (i < j -> D <= bs)%nat ->
  exists x' bs',
    Difflib.scan_row i j row (x, x, bs) = (x', x', bs') /\
    (bs <= bs')%nat /\
    (j <= i -> i < j + List.length row -> D <= bs')%nat.
Proof.
  revert j x bs; induction row as [|k row IH]; intros j x bs H Hj.
  - exists x, bs; simpl; repeat split; lia.
  - cbn [Difflib.scan_row].
    destruct (H 0%nat k eq_refl) as (Hlt & Heq & Hgt).
    rewrite Nat.add_0_r in Hlt, Heq, Hgt.
    assert (Htail : forall bs', (bs <= bs')%nat ->
              forall idx k', nth_error row idx = Some k' ->
                (S j + idx < i -> k' <= bs')%nat /\
                (S j + idx = i -> k' = D)%nat /\
                (i < S j + idx -> k' <= D)%nat).
    { intros bs' Hbs idx k' Hk'.
      destruct (H (S idx) k' Hk') as (H1 & H2 & H3).
      repeat split; intros; [specialize (H1 ltac:(lia)) | apply H2 | apply H3];
        lia. }
    destruct (Nat.ltb_spec bs k) as [Hup | Hno].
    + assert (Hji : j = i) by (destruct (Nat.lt_trichotomy j i) as [?|[?|?]]; lia).
      assert (HkD : k = D) by auto.
      replace (j + 1 - k)%nat with (i + 1 - k)%nat by lia.
      destruct (IH (S j) (i + 1 - k)%nat k (Htail k ltac:(lia)) ltac:(lia))
        as (x' & bs' & Hs & Hle & _).
      exists x', bs'; repeat split; trivial; simpl; lia.
    + destruct (IH (S j) x bs (Htail bs (Nat.le_refl _)))
        as (x' & bs' & Hs & Hle & HD).
      { intros Hij; destruct (Nat.eq_dec j i) as [->|]; [|lia].
        rewrite <- (Heq eq_refl); exact Hno. }
      exists x', bs'; repeat split; trivial.
      simpl; intros Hji Hlen.
      destruct (Nat.eq_dec j i) as [->|]; [|apply HD; lia].
      rewrite <- (Heq eq_refl); lia.
Qed.

Lemma scan_rows_diag (pre suf : str) (prev : list nat) (x bs : nat) :
  a = pre ++ suf ->
  prev_ok pop a (List.length pre) prev ->
  (forall c, c < List.length pre -> diag_run pop a (S c) <= bs)%nat ->
  exists x' bs',
    Difflib.scan_rows pop (List.length pre) suf a prev (x, x, bs) = (x', x', bs').
Proof.
  revert pre prev x bs; induction suf as [|ai suf IH];
    intros pre prev x bs Ha Hprev Hbs.
  - now exists x, bs.
  - cbn [Difflib.scan_rows].
    assert (Hi : nth_error a (List.length pre) = Some ai)
      by (rewrite Ha, nth_error_app2, Nat.sub_diag by lia; reflexivity).
    pose proof (prev_ok_step _ ai prev Hprev Hi) as Hrow.
    set (row := Difflib.j2len_row pop ai a (0%nat :: prev)) in *.
    assert (Hlen : List.length row = List.length a)
      by apply j2len_row_length.
    destruct (scan_row_diag (List.length pre)
                (diag_run pop a (S (List.length pre))) row 0 x bs)
      as (x' & bs' & Hs & Hle & HD).
    { intros idx k Hk; simpl.
      assert (Hn : nth idx row 0%nat = k) by now apply nth_error_nth.
      destruct (Hrow idx) as (H1 & H2 & H3); rewrite Hn in *.
      repeat split.
      - intros Hlt; specialize (Hbs idx Hlt); lia.
      - intros ->; now apply H3.
      - intros _; exact H2. }
    { lia. }
    rewrite Hs.
    replace (S (List.length pre)) with (List.length (pre ++ [ai]))
      in * by (rewrite length_app; simpl; lia).
    apply IH; trivial.
    + now rewrite <- app_assoc.
    + intros c Hc; rewrite length_app in Hc; simpl in Hc.
      destruct (Nat.eq_dec c (List.length pre)) as [->|Hne].
      * replace (S (List.length pre)) with (List.length (pre ++ [ai]))
          by (rewrite length_app; simpl; lia).
        apply HD; [lia|].
        rewrite Hlen, Ha, length_app; simpl; lia.
      * specialize (Hbs c ltac:(lia)); lia.
Qed.

Lemma common_prefix_same (s : str) :
  Difflib.common_prefix s s = List.length s.
Proof.
  induction s as [|c s IH]; simpl; trivial.
  now rewrite N.eqb_refl, IH.
Qed.

(** The longest block of a string against itself is the whole string. *)
Lemma find_longest_match_same :
  Difflib.find_longest_match pop a a = (0, 0, List.length a)%nat.
Proof.
  unfold Difflib.find_longest_match.
  pose proof (scan_rows_bound pop 0 a a [] (0, 0, 0)%nat (Forall_nil _)
                (Nat.le_refl 0)) as Hb.
  destruct (scan_rows_diag [] a [] 0 0 eq_refl) as (x & bs & Hs).
  { intros j; destruct j; simpl; repeat split; try lia; discriminate. }
  { simpl; intros c Hc; lia. }
  simpl List.length in Hs; rewrite Hs in *.
  unfold block_end in Hb; simpl in Hb.
  rewrite !common_prefix_same, length_rev, length_firstn, length_skipn.
  f_equal; [f_equal|]; lia.
Qed.
End Diagonal.

Lemma matches_same (pop : char -> bool) (a : str) (fuel : nat) :
  Difflib.matches pop (S fuel) a a = List.length a.
Proof.
  cbn [Difflib.matches]; rewrite find_longest_match_same.
  destruct (Nat.eqb_spec (List.length a) 0) as [E|E]; [now rewrite E|].
  change (0 <? 0)%nat with false.
  replace (0 + List.length a <? List.length a)%nat with false
    by (symmetry; apply Nat.ltb_ge; lia).
  cbn [andb]; lia.
Qed.

(** X26. A non-empty string has similarity 1 with itself, the popular
    characters of a long string notwithstanding. *)
Theorem similarity_identical :
  forall (a : str), a <> [] -> (similarity a a == 1)%Q.
Proof.
  intros a Ha; unfold similarity.
  destruct a as [|c a]; [contradiction|]; cbn [nonempty andb].
  unfold Difflib.ratio; rewrite matches_same.
  set (n := List.length (c :: a)).
  assert (Hn : (n + n)%nat = S (n + List.length a))
    by (unfold n; simpl; lia).
  rewrite Hn, <- Hn.
  assert (Hpos : Z.pos (Pos.of_nat (n + n)) = Z.of_nat (n + n))
    by (rewrite <- positive_nat_Z, Nat2Pos.id; [reflexivity | lia]).
  unfold Qeq; cbn [Qnum Qden]; rewrite Hpos; lia.
Qed.

Lemma similarity_identical_witness :
  py "salah" <> [] /\ (similarity (py "salah") (py "salah") == 1)%Q.
Proof.
  assert (H : py "salah" <> []) by (vm_compute; discriminate).
  split; [exact H | exact (similarity_identical (py "salah") H)].
Defined.
